(** * Resilient calls and novel creation

    A shallow embedding of [src/lib/api/novels.ts] and of the helpers that
    travel with it ([uploadNovelCover], [withTimeout], [fetchWithRetry]).

    Asynchronous code is modelled on a discrete millisecond clock.  A world
    carries the clock, the table of armed timers of the event loop, the
    number of times the caller-supplied operation has been invoked, and a log
    of what the retry loop did.  Awaiting a promise moves the world to the
    instant at which the promise settles.

    Conventions of the model:
    - durations and counters are integers ([Z]); a timer fires exactly when
      it is due;
    - the delay of a timer is a signed 32-bit quantity.  The component runs
      in a browser, where [setTimeout] wraps its delay around to 32 bits
      and takes a negative one as zero; other platforms agree with this
      for delays from 1 to [TIMEOUT_MAX] and may differ outside (Node
      substitutes one millisecond).  Whatever is stated about the length
      of a timer is stated for delays from 1 to [TIMEOUT_MAX];
    - [fetchFn()] hands back a promise, as its type [() => Promise<T>] says;
    - the console and the toast library do not throw. *)

From Stdlib Require Import Ascii String.
From stdpp Require Import gmap list strings.

Local Open Scope Z_scope.

Module Resilience.

(** [export const SUPABASE_TIMEOUT = 10000; // 10 seconds] *)
Definition SUPABASE_TIMEOUT : Z := 10000.

(** The largest delay a timer can hold. *)
Definition TIMEOUT_MAX : Z := 2147483647.

(** The conversion of a delay to a signed 32-bit integer: it wraps around. *)
Definition to_int32 (ms : Z) : Z :=
  (ms + 2147483648) mod 4294967296 - 2147483648.

(** The delay [setTimeout] really uses: the requested one converted to 32
    bits, and zero when that is negative.  So [2 ^ 31] fires at once and
    [2 ^ 32 + 5000] after five seconds. *)
Definition clamp (ms : Z) : Z := Z.max 0 (to_int32 ms).

Section ResilientCall.

(** [T] is the type parameter of the source; [E] is the type of the
    reasons an operation rejects with. *)
Context {T E : Type}.

(** When a promise settles in the very millisecond at which a timer is due,
    the order of the two callbacks is the scheduler's choice.  Every result
    below holds for both choices. *)
Variable op_wins_tie : bool.

(** What a [catch] clause can receive: the value of a variable that was
    declared and never assigned, the [Error('Request timed out')] object
    made by [withTimeout], or a reason coming from the operation. *)
Inductive reason : Type :=
| Undefined
| RequestTimedOut
| OperationFailure (e : E).

Inductive settled : Type :=
| Fulfilled (v : T)
| Rejected (r : reason).

(** A promise, seen from the instant it is handed over: it settles [after]
    milliseconds from now, or it stays pending for ever. *)
Inductive promise : Type :=
| Settles (after : N) (o : settled)
| Pending.

Inductive event : Type :=
| Attempt (k : nat) (start finish : Z) (o : settled)
| Sleep (ms : Z) (start finish : Z).

Record world : Type := World {
  now : Z;
  next_id : nat;
  timers : gmap nat Z;
  calls : nat;
  log : list event
}.

Definition set_timers (f : gmap nat Z → gmap nat Z) (w : world) : world :=
  World (now w) (next_id w) (f (timers w)) (calls w) (log w).

Definition record (e : event) (w : world) : world :=
  World (now w) (next_id w) (timers w) (calls w) (log w ++ [e]).

(** [setTimeout(callback, ms)]: arms a timer and returns its handle
    together with the instant at which it is due. *)
Definition setTimeout (ms : Z) (w : world) : nat * Z * world :=
  let id := next_id w in
  let due := now w + clamp ms in
  (id, due, World (now w) (S id) (<[id := due]> (timers w)) (calls w) (log w)).

(** The event loop runs up to instant [t]: every timer that was due
    strictly earlier has fired and left the table. *)
Definition elapse (t : Z) (w : world) : world :=
  World t (next_id w) (filter (λ kv, t ≤ kv.2) (timers w)) (calls w) (log w).

(** A timer runs its callback and leaves the table.  The source never
    calls [clearTimeout]: firing is the only way out of the table. *)
Definition fire (id : nat) (w : world) : world :=
  set_timers (delete id) w.

(** Does the promise settle before the timer due at [due]? *)
Definition operation_first (p : promise) (due : Z) (w : world) : bool :=
  match p with
  | Settles after _ =>
      let t := now w + Z.of_N after in
      (t <? due) || ((t =? due) && op_wins_tie)
  | Pending => false
  end.

(** [Promise.race([promise, timeoutPromise])], awaited; [timeoutPromise]
    rejects when timer [id] fires at [due]. *)
Definition race (p : promise) (id : nat) (due : Z) (w : world)
  : settled * world :=
  match p with
  | Settles after o =>
      if operation_first p due w
      then (o, elapse (now w + Z.of_N after) w)
      else (Rejected RequestTimedOut, fire id (elapse due w))
  | Pending => (Rejected RequestTimedOut, fire id (elapse due w))
  end.

(** [withTimeout(promise, timeoutMs)], awaited. *)
Definition withTimeout (p : promise) (timeoutMs : Z) (w : world)
  : settled * world :=
  let '(id, due, w1) := setTimeout timeoutMs w in
  race p id due w1.

(** The call site: an omitted [timeoutMs] takes the default. *)
Definition withTimeout_call (p : promise) (timeoutMs : option Z)
  : world → settled * world :=
  withTimeout p (default SUPABASE_TIMEOUT timeoutMs).

(** The handle that a call of [withTimeout] in world [w] gives its timer. *)
Definition timer_of (w : world) : nat := next_id w.

Definition timer_released (id : nat) (w : world) : Prop :=
  timers w !! id = None.

(** ** fetchWithRetry *)

(** The caller-supplied [fetchFn : () => Promise<T>].  It may behave
    differently each time it is called, so its behaviour is a function of
    how many times it has been called before. *)
Definition operation : Type := nat → promise.

(** [fetchFn()]: one more invocation of the operation. *)
Definition invoke (fetchFn : operation) (w : world) : promise * world :=
  (fetchFn (calls w),
   World (now w) (next_id w) (timers w) (S (calls w)) (log w)).

(** [await withTimeout(fetchFn())], the body of the [try] block. *)
Definition attempt (fetchFn : operation) (w : world) : settled * world :=
  let '(p, w1) := invoke fetchFn w in
  let '(o, w2) := withTimeout_call p None w1 in
  (o, record (Attempt (calls w) (now w) (now w2) o) w2).

(** [await new Promise(resolve => setTimeout(resolve, ms))]. *)
Definition sleep (ms : Z) (w : world) : world :=
  let '(id, due, w1) := setTimeout ms w in
  record (Sleep ms (now w) due) (fire id (elapse due w1)).

(** The wait in the [catch] clause:
    [if (i < maxRetries - 1) await new Promise(... delay * (i + 1))]. *)
Definition backoff (maxRetries delay i : Z) (w : world) : world :=
  if i <? maxRetries - 1 then sleep (delay * (i + 1)) w else w.

(** The [for] loop with its counter [i] and the variable [lastError];
    the statement after the loop is the [else] branch.  [fuel] bounds the
    number of times the loop condition is evaluated. *)
Fixpoint retry_loop (fetchFn : operation) (maxRetries delay : Z)
    (fuel : nat) (i : Z) (lastError : reason) (w : world)
  : option (settled * world) :=
  match fuel with
  | O => None
  | S fuel' =>
      if i <? maxRetries then
        match attempt fetchFn w with
        | (Fulfilled v, w1) => Some (Fulfilled v, w1)
        | (Rejected error, w1) =>
            retry_loop fetchFn maxRetries delay fuel' (i + 1) error
              (backoff maxRetries delay i w1)
        end
      else Some (Rejected lastError, w)
  end.

(** [fetchWithRetry(fetchFn, maxRetries, delay)], awaited.  The loop
    condition is evaluated at most [maxRetries + 1] times. *)
Definition fetchWithRetry (fetchFn : operation) (maxRetries delay : Z)
    (w : world) : option (settled * world) :=
  retry_loop fetchFn maxRetries delay (S (Z.to_nat maxRetries)) 0 Undefined w.

(** The call site: omitted arguments take the defaults
    [maxRetries = 3] and [delay = 1000]. *)
Definition fetchWithRetry_call (fetchFn : operation)
    (maxRetries delay : option Z) : world → option (settled * world) :=
  fetchWithRetry fetchFn (default 3 maxRetries) (default 1000 delay).

(** The loop as a relation: [runs .. i lastError w res w'] when the loop,
    entered with counter [i] and variable [lastError] in world [w], leaves
    [fetchWithRetry] with [res] in world [w'].  One rule per way through
    the loop body. *)
Inductive runs (fetchFn : operation) (maxRetries delay : Z)
  : Z → reason → world → settled → world → Prop :=
| runs_exit i e w :
    maxRetries ≤ i →
    runs fetchFn maxRetries delay i e w (Rejected e) w
| runs_success i e w v :
    i < maxRetries →
    (attempt fetchFn w).1 = Fulfilled v →
    runs fetchFn maxRetries delay i e w (Fulfilled v) (attempt fetchFn w).2
| runs_failure i e w r res w' :
    i < maxRetries →
    (attempt fetchFn w).1 = Rejected r →
    runs fetchFn maxRetries delay (i + 1) r
      (backoff maxRetries delay i (attempt fetchFn w).2) res w' →
    runs fetchFn maxRetries delay i e w res w'.

(** The promise is still unsettled [ms] milliseconds after it was made. *)
Definition overdue (p : promise) (ms : Z) : Prop :=
  match p with
  | Settles after _ => ms < Z.of_N after
  | Pending => True
  end.

(** The outcome of one wrapped attempt, as the retry loop sees it. *)
Definition attempt_outcome (fetchFn : operation) (w : world) : settled :=
  (attempt fetchFn w).1.

(** How [await withTimeout(p)] settles for a promise [p] that has just been
    made.  The call is run from a fresh world; the outcome is the same from
    every world ([awaited_any_world] below). *)
Definition awaited (p : promise) : settled :=
  (withTimeout_call p None (World 0 0%nat ∅ 0%nat [])).1.

End ResilientCall.

(** A fresh world: clock at zero, no timer armed, nothing logged. *)
Definition world0 {T E : Type} : world (T:=T) (E:=E) := World 0 0%nat ∅ 0%nat [].

End Resilience.


Module Novels.

Local Open Scope string_scope.

(** ** JavaScript values, as far as the error paths look at them *)

(** A value that can be thrown, rejected with, or stored in a field.
    [JObj message] is an object whose [message] property holds [message]
    ([JUndefined] when the object has no such property); an [Error] object
    is [JObj (JStr text)]. *)
Inductive jsval : Type :=
| JUndefined
| JNull
| JBool (b : bool)
| JStr (s : string)
| JObj (message : jsval).

(** [null] and [undefined]. *)
Definition nullish (v : jsval) : bool :=
  match v with
  | JUndefined | JNull => true
  | _ => false
  end.

(** The condition of [if (v)]. *)
Definition truthy (v : jsval) : bool :=
  match v with
  | JUndefined | JNull => false
  | JBool b => b
  | JStr s => negb (String.eqb s "")
  | JObj _ => true
  end.

(** [v.message]: reading a property of [null] or [undefined] raises a
    [TypeError] ([None]); booleans and strings have no such property. *)
Definition property_message (v : jsval) : option jsval :=
  match v with
  | JUndefined | JNull => None
  | JBool _ | JStr _ => Some JUndefined
  | JObj message => Some message
  end.

(** [a || b] *)
Definition js_or (a b : jsval) : jsval := if truthy a then a else b.

(** An awaited promise of a collaborator: it resolves, or the [await]
    raises the rejection value. *)
Inductive completion (A : Type) : Type :=
| Resolved (a : A)
| Raised (v : jsval).
Arguments Resolved {A} a.
Arguments Raised {A} v.

(** What reaches the console and the notification sink. *)
Inductive effect : Type :=
| ConsoleError (label : string) (v : jsval)
| ToastSuccess (text : string)
| ToastError (text : jsval).

(** ** The data of a novel *)

Inductive leading := male | female.

(** The fields the form supplies. *)
Record FormData : Type := {
  title : string;
  author : string;
  genre : list string;
  leading_character : leading;
  story : string
}.

Record File : Type := { name : string; size : N }.

(** The row handed to [insert]. *)
Record Row : Type := {
  form : FormData;
  novel_coverpage : jsval;
  upload_by : string;
  views : Z;
  created_at : string
}.

(** The hosted platform and the environment, as black boxes.
    - [uuidv4]: the name generated by [uuidv4()];
    - [upload fileName file]: the awaited
      [supabase.storage.from('novel_covers').upload(fileName, file, ...)],
      which resolves with the [error] field of its answer, or rejects;
    - [getPublicUrl fileName]: [getPublicUrl(fileName).data.publicUrl];
    - [insert row]: the awaited
      [supabase.from('Novels').insert([row]).select().single()], which
      resolves with the [data] and [error] fields of its answer, or rejects;
    - [toISOString]: [new Date().toISOString()]. *)
Record Backend : Type := {
  uuidv4 : string;
  upload : string → File → completion jsval;
  getPublicUrl : string → string;
  insert : Row → completion (jsval * jsval);
  toISOString : string
}.

(** [name.split('.').pop()]: the text after the last dot, the whole name
    when it has no dot.  [acc] is the segment read so far. *)
Fixpoint split_pop (s acc : string) : string :=
  match s with
  | EmptyString => acc
  | String c rest =>
      if Ascii.eqb c "."%char then split_pop rest ""
      else split_pop rest (acc ++ String c "")
  end.

Section WithBackend.

Variable B : Backend.

(** [uploadNovelCover(file)], awaited. *)
Definition uploadNovelCover (file : File) : completion string * list effect :=
  let fileExt := split_pop (name file) "" in
  let fileName := uuidv4 B ++ "." ++ fileExt in
  let body :=
    match upload B fileName file with
    | Raised v => Raised v
    | Resolved uploadError =>
        if truthy uploadError then Raised uploadError
        else Resolved (getPublicUrl B fileName)
    end in
  match body with
  | Resolved url => (Resolved url, [])
  | Raised error =>
      (Raised error, [ConsoleError "Error uploading novel cover:" error])
  end.

(** The [try] block of [createNovel]: [Resolved tt] when it reaches its
    [return], [Raised v] when [v] is thrown inside it. *)
Definition try_block (formData : FormData) (coverImage : option File)
    (userId : string) : completion unit * list effect :=
  let '(cover, fx) :=
    match coverImage with
    | Some file =>
        match uploadNovelCover file with
        | (Resolved url, fx) => (Resolved (JStr url), fx)
        | (Raised v, fx) => (Raised v, fx)
        end
    | None => (Resolved JNull, [])
    end in
  match cover with
  | Raised v => (Raised v, fx)
  | Resolved cover_url =>
      let row := {| form := formData;
                    novel_coverpage := cover_url;
                    upload_by := userId;
                    views := 0;
                    created_at := toISOString B |} in
      match insert B row with
      | Raised v => (Raised v, fx)
      | Resolved (data, error) =>
          if truthy error then (Raised error, fx)
          else (Resolved tt,
                (fx ++ [ToastSuccess "Novel created successfully!"])%list)
      end
  end.

(** The object [createNovel] returns. *)
Record result : Type := { success : bool; error : jsval }.

Inductive outcome : Type :=
| Returns (r : result)
| RejectsTypeError.

(** The [catch (error: any)] clause. *)
Definition catch_block (error : jsval) : outcome * list effect :=
  let fx := [ConsoleError "Error creating novel:" error] in
  match property_message error with
  | None => (RejectsTypeError, fx)
  | Some message =>
      (Returns {| success := false; error := message |},
       (fx ++ [ToastError (js_or message (JStr "Failed to create novel"))])%list)
  end.

(** [createNovel(formData, coverImage, userId)], awaited. *)
Definition createNovel (formData : FormData) (coverImage : option File)
    (userId : string) : outcome * list effect :=
  match try_block formData coverImage userId with
  | (Resolved _, fx) =>
      (Returns {| success := true; error := JUndefined |}, fx)
  | (Raised error, fx) =>
      let '(out, fx') := catch_block error in (out, (fx ++ fx')%list)
  end.

(** A rejected promise of a collaborator never carries [null] or
    [undefined]. *)
Definition rejections_not_nullish : Prop :=
  (∀ fileName file v, upload B fileName file = Raised v → nullish v = false)
  ∧ (∀ row v, insert B row = Raised v → nullish v = false).

End WithBackend.

End Novels.


(** * Views on the log of a run used by the statements *)

Module LogViews.
Import Resilience.

Section Counting.

Context {T E : Type}.

(** How many attempts a stretch of the log holds. *)
Fixpoint attempts_in (L : list (event (T:=T) (E:=E))) : nat :=
  match L with
  | [] => 0
  | Attempt _ _ _ _ :: L' => S (attempts_in L')
  | Sleep _ _ _ :: L' => attempts_in L'
  end.

(** How many waits a stretch of the log holds. *)
Fixpoint waits_in (L : list (event (T:=T) (E:=E))) : nat :=
  match L with
  | [] => 0
  | Attempt _ _ _ _ :: L' => waits_in L'
  | Sleep _ _ _ :: L' => S (waits_in L')
  end.

End Counting.

End LogViews.

(** * Reporting an error to the user *)

Module ErrorReport.
Import Novels.

Local Open Scope string_scope.

(** [error?.message]: [undefined] for [null] and [undefined], the property
    otherwise. *)
Definition optional_message (error : jsval) : jsval :=
  match property_message error with
  | Some message => message
  | None => JUndefined
  end.

(** [handleError(error)]: what it writes to the console and the toast it
    shows. *)
Definition handleError (error : jsval) : list effect :=
  let message :=
    js_or (optional_message error) (JStr "An unexpected error occurred") in
  [ConsoleError "Error:" error; ToastError message].

End ErrorReport.

(** * Views on novel creation used by the statements *)

Module NovelSupport.
Import Novels.

(** The same platform with another behaviour of the insert. *)
Definition with_insert (B : Backend)
    (insert' : Row → completion (jsval * jsval)) : Backend :=
  {| uuidv4 := uuidv4 B;
     upload := upload B;
     getPublicUrl := getPublicUrl B;
     insert := insert';
     toISOString := toISOString B |}.

(** The name under which [uploadNovelCover] stores a file. *)
Definition stored_name (B : Backend) (file : File) : string :=
  (uuidv4 B ++ "." ++ split_pop (name file) "")%string.

(** The row [createNovel] hands to the insert, for a given cover. *)
Definition row_of (B : Backend) (formData : FormData) (cover : jsval)
    (userId : string) : Row :=
  {| form := formData;
     novel_coverpage := cover;
     upload_by := userId;
     views := 0;
     created_at := toISOString B |}.

Definition is_toast (e : effect) : bool :=
  match e with
  | ToastSuccess _ | ToastError _ => true
  | ConsoleError _ _ => false
  end.

(** The toasts among the effects, in order. *)
Definition toasts (fx : list effect) : list effect :=
  List.filter is_toast fx.

(** The text has no dot in it. *)
Fixpoint dot_free (s : string) : bool :=
  match s with
  | EmptyString => true
  | String c rest => negb (Ascii.eqb c "."%char) && dot_free rest
  end.

End NovelSupport.

(** * The creation form ([CreateNovelModal]) *)

Module Modal.
Import Novels.

Local Open Scope string_scope.

Record UserProfile : Type := { user_id : string }.

(** The state of the component: its four [useState] cells. *)
Record State : Type := {
  formData : FormData;
  coverImage : option File;
  uploading : bool;
  error : jsval
}.

(** What [handleSubmit] calls besides the state setters.  The callbacks
    [onCreated] and [onClose] are taken not to throw. *)
Inductive ui_event : Type :=
| PreventDefault
| OnCreated
| OnClose.

Definition setError (e : jsval) (st : State) : State :=
  {| formData := formData st; coverImage := coverImage st;
     uploading := uploading st; error := e |}.

Definition setUploading (b : bool) (st : State) : State :=
  {| formData := formData st; coverImage := coverImage st;
     uploading := b; error := error st |}.

(** The updater of the genre buttons:
    [prev.genre.includes(genre) ? prev.genre.filter(g => g !== genre)
     : prev.genre.length < 3 ? [...prev.genre, genre] : prev.genre]. *)
Definition toggle (clicked : string) (selected : list string) : list string :=
  if decide (clicked ∈ selected)
  then filter (λ g, g ≠ clicked) selected
  else if decide (length selected < 3)%nat
       then selected ++ [clicked]
       else selected.

(** [setFormData(prev => ({ ...prev, genre: ... }))] *)
Definition toggleGenre (clicked : string) (prev : FormData) : FormData :=
  {| title := title prev; author := author prev;
     genre := toggle clicked (genre prev);
     leading_character := leading_character prev; story := story prev |}.

(** The initial [formData]. *)
Definition emptyForm : FormData :=
  {| title := ""; author := ""; genre := [];
     leading_character := male; story := "" |}.

Section Component.

(** [String.prototype.trim], a built-in of the platform. *)
Variable trim : string → string.

Variable B : Backend.

(** The text of the [message] of the [TypeError] the engine raises when a
    property of [undefined] or [null] is read. *)
Variable type_error_text : string.

(** [!s.trim()] *)
Definition blank (s : string) : bool := negb (truthy (JStr (trim s))).

(** [validateForm()]: the message of the first check that fails, or
    [null]. *)
Definition validateForm (fd : FormData) : jsval :=
  if blank (title fd) then JStr "Title is required"
  else if blank (author fd) then JStr "Author is required"
  else if (length (genre fd) =? 0)%nat
       then JStr "Please select at least one genre"
  else if blank (story fd) then JStr "Synopsis is required"
  else JNull.

(** What a call of [handleSubmit] leaves behind: the state after all its
    setter calls, the callbacks it made in order, the outcome of
    [createNovel] when it was called, and what [createNovel] sent to the
    console and the notification sink. *)
Record Submitted : Type := {
  state : State;
  events : list ui_event;
  created : option outcome;
  effects : list effect
}.

(** The [try] / [catch] of [handleSubmit], entered with the state [st]
    and the outcome of the awaited [createNovel]: the state and the
    callbacks made when the [finally] clause is reached. *)
Definition after_create (out : outcome) (st : State)
  : State * list ui_event :=
  match out with
  | Returns r =>
      if success r then (st, [OnCreated; OnClose])
      else (setError (js_or (Novels.error r) (JStr "Failed to create novel")) st,
            [])
  | RejectsTypeError =>
      (setError (js_or (JStr type_error_text)
                   (JStr "An unexpected error occurred")) st,
       [])
  end.

(** [handleSubmit(e)], awaited. *)
Definition handleSubmit (userProfile : option UserProfile) (st : State)
  : Submitted :=
  match userProfile with
  | None =>
      {| state := st; events := [PreventDefault];
         created := None; effects := [] |}
  | Some profile =>
      let validationError := validateForm (formData st) in
      if truthy validationError
      then {| state := setError validationError st;
              events := [PreventDefault]; created := None; effects := [] |}
      else
        let st1 := setUploading true (setError JNull st) in
        let '(out, fx) :=
          createNovel B (formData st) (coverImage st) (user_id profile) in
        let '(st2, evs) := after_create out st1 in
        {| state := setUploading false st2;
           events := PreventDefault :: evs;
           created := Some out; effects := fx |}
  end.

End Component.

End Modal.

(** * Sample operations and collaborators *)

Module Samples.
Import Resilience Novels.

Local Open Scope string_scope.

(** Every invocation rejects after 7 ms, each with a reason of its own:
    the number of the invocation. *)
Definition always_fails : operation (T:=string) (E:=nat) :=
  λ k, Settles 7 (Rejected (OperationFailure k)).

(** Rejects after 20 ms the first time, never settles the second time,
    and from then on resolves after 300 ms. *)
Definition flaky : operation (T:=string) (E:=string) :=
  λ k, match k with
       | O => Settles 20 (Rejected (OperationFailure "boom"))
       | 1%nat => Pending
       | _ => Settles 300 (Fulfilled "ok")
       end.

(** The run [fetchWithRetry(flaky)] with the default arguments, from a
    fresh world: its result and the world in which it settles. *)
Definition flaky_result : settled (T:=string) (E:=string) :=
  match fetchWithRetry true flaky 3 1000 world0 with
  | Some (res, _) => res
  | None => Rejected Undefined
  end.

Definition flaky_end : world (T:=string) (E:=string) :=
  match fetchWithRetry true flaky 3 1000 world0 with
  | Some (_, w') => w'
  | None => world0
  end.

(** A slow operation that would succeed after 50 ms. *)
Definition slow : promise (T:=string) (E:=string) :=
  Settles 50 (Fulfilled "late").

(** A quick operation that succeeds after 5 ms. *)
Definition quick : promise (T:=string) (E:=string) :=
  Settles 5 (Fulfilled "v").

Definition form1 : FormData :=
  {| title := "A Tale"; author := "Ann"; genre := ["Fantasy"];
     leading_character := female; story := "Once upon a time" |}.

Definition cover1 : File := {| name := "cover.final.png"; size := 2048 |}.

(** A platform on which everything works. *)
Definition healthy : Backend :=
  {| uuidv4 := "0b5c";
     upload := λ _ _, Resolved JNull;
     getPublicUrl := λ fileName, "https://cdn/" ++ fileName;
     insert := λ _, Resolved (JObj JUndefined, JNull);
     toISOString := "2024-12-01T00:00:00.000Z" |}.

(** The insert answers with an [Error]-like object. *)
Definition duplicate_title : Backend :=
  {| uuidv4 := "0b5c";
     upload := λ _ _, Resolved JNull;
     getPublicUrl := λ fileName, "https://cdn/" ++ fileName;
     insert := λ _, Resolved (JNull, JObj (JStr "duplicate title"));
     toISOString := "2024-12-01T00:00:00.000Z" |}.

(** The upload promise rejects with [undefined]. *)
Definition storage_down : Backend :=
  {| uuidv4 := "0b5c";
     upload := λ _ _, Raised JUndefined;
     getPublicUrl := λ fileName, "https://cdn/" ++ fileName;
     insert := λ _, Resolved (JObj JUndefined, JNull);
     toISOString := "2024-12-01T00:00:00.000Z" |}.

(** The insert answers with an error object that has no [message]. *)
Definition bare_error : Backend :=
  {| uuidv4 := "0b5c";
     upload := λ _ _, Resolved JNull;
     getPublicUrl := λ fileName, "https://cdn/" ++ fileName;
     insert := λ _, Resolved (JNull, JObj JUndefined);
     toISOString := "2024-12-01T00:00:00.000Z" |}.

(** [String.prototype.trim] on text whose white space is ASCII. *)
Definition is_space (c : ascii) : bool :=
  let n := Ascii.nat_of_ascii c in
  ((9 <=? n) && (n <=? 13))%nat || (n =? 32)%nat.

Fixpoint trimStart (s : string) : string :=
  match s with
  | EmptyString => ""
  | String c rest => if is_space c then trimStart rest else s
  end.

Fixpoint trimEnd (s : string) : string :=
  match s with
  | EmptyString => ""
  | String c rest =>
      let rest' := trimEnd rest in
      if is_space c && String.eqb rest' "" then "" else String c rest'
  end.

Definition trim_ascii (s : string) : string := trimEnd (trimStart s).

Definition ann : Modal.UserProfile := {| Modal.user_id := "user-1" |}.

(** The form filled in, a cover chosen, nothing in flight. *)
Definition filled : Modal.State :=
  {| Modal.formData := form1; Modal.coverImage := Some cover1;
     Modal.uploading := false; Modal.error := JNull |}.

(** The same form with a title of blanks only. *)
Definition untitled : Modal.State :=
  {| Modal.formData :=
       {| title := "   "; author := "Ann"; genre := ["Fantasy"];
          leading_character := female; story := "Once upon a time" |};
     Modal.coverImage := None;
     Modal.uploading := false; Modal.error := JNull |}.

End Samples.

(** * Properties of the deadline wrapper *)

Module DeadlineFacts.
Import Resilience.

(** ** The delay of a timer *)

Lemma clamp_in_range ms : 0 ≤ ms ≤ TIMEOUT_MAX → clamp ms = ms.
Proof.
  unfold clamp, to_int32, TIMEOUT_MAX. intros Hrange.
  Z.to_euclidean_division_equations. lia.
Qed.

Lemma clamp_nonneg ms : 0 ≤ clamp ms.
Proof. unfold clamp. lia. Qed.

Lemma clamp_bounded ms : clamp ms ≤ TIMEOUT_MAX.
Proof.
  unfold clamp, to_int32, TIMEOUT_MAX.
  Z.to_euclidean_division_equations. lia.
Qed.

(** A timer never lasts longer than it was asked to. *)
Lemma clamp_le ms : 0 ≤ ms → clamp ms ≤ ms.
Proof.
  unfold clamp, to_int32. intros Hpos.
  Z.to_euclidean_division_equations. lia.
Qed.

Lemma clamp_default : clamp SUPABASE_TIMEOUT = SUPABASE_TIMEOUT.
Proof. reflexivity. Qed.

(** Outside the range a timer can hold, the delay overflows or counts as
    zero. *)
Example clamp_out_of_range :
  clamp (-5) = 0 ∧ clamp 0 = 0 ∧ clamp TIMEOUT_MAX = TIMEOUT_MAX
  ∧ clamp (TIMEOUT_MAX + 1) = 0 ∧ clamp (4294967296 + 5000) = 5000.
Proof. by vm_compute. Qed.

Section Deadline.

Context {T E : Type}.
Variable op_wins_tie : bool.

Abbreviation world := (world (T:=T) (E:=E)).
Abbreviation promise := (promise (T:=T) (E:=E)).

Lemma setTimeout_now ms (w : world) : now (setTimeout ms w).2 = now w.
Proof. reflexivity. Qed.

Lemma withTimeout_unfold (p : promise) ms (w : world) :
  withTimeout op_wins_tie p ms w =
  race op_wins_tie p (next_id w) (now w + clamp ms) (setTimeout ms w).2.
Proof. reflexivity. Qed.

(** The timer decides the race: the call rejects with the timeout error at
    the instant the timer is due. *)
Lemma race_timer_first (p : promise) id due (w : world) :
  operation_first op_wins_tie p due w = false →
  race op_wins_tie p id due w
  = (Rejected RequestTimedOut, fire id (elapse due w)).
Proof.
  intros Hfirst. destruct p as [after o|]; simpl in *; [|done].
  by rewrite Hfirst.
Qed.

(** The operation decides the race: its settlement is the result. *)
Lemma race_operation_first after o id due (w : world) :
  operation_first op_wins_tie (Settles after o) due w = true →
  race op_wins_tie (Settles after o) id due w
  = (o, elapse (now w + Z.of_N after) w).
Proof. intros Hfirst. simpl in *. by rewrite Hfirst. Qed.

Lemma operation_first_early after o due (w : world) :
  now w + Z.of_N after < due →
  operation_first op_wins_tie (Settles after o) due w = true.
Proof.
  intros Hlt. simpl. apply orb_true_iff. left. by apply Z.ltb_lt.
Qed.

Lemma operation_first_late after o due (w : world) :
  due < now w + Z.of_N after →
  operation_first op_wins_tie (Settles after o) due w = false.
Proof.
  intros Hlt. simpl. apply orb_false_iff. split.
  - apply Z.ltb_ge. lia.
  - apply andb_false_iff. left. apply Z.eqb_neq. lia.
Qed.

(** An operation that never settles loses the race as well. *)
Lemma withTimeout_pending ms (w : world) :
  withTimeout op_wins_tie Pending ms w
  = (Rejected RequestTimedOut,
     fire (next_id w) (elapse (now w + clamp ms) (setTimeout ms w).2)).
Proof. reflexivity. Qed.

(** A promise that is still unsettled when the timer is due loses the
    race. *)
Lemma withTimeout_overdue (p : promise) timeoutMs (w : world) :
  0 ≤ timeoutMs ≤ TIMEOUT_MAX →
  overdue p timeoutMs →
  withTimeout op_wins_tie p timeoutMs w
  = (Rejected RequestTimedOut,
     fire (next_id w) (elapse (now w + timeoutMs) (setTimeout timeoutMs w).2)).
Proof.
  intros Hrange Hover. rewrite withTimeout_unfold.
  rewrite clamp_in_range by done.
  apply race_timer_first. destruct p as [after o|]; [|done].
  apply operation_first_late. rewrite setTimeout_now. simpl in Hover. lia.
Qed.

(** A promise that settles before the timer is due wins the race. *)
Lemma withTimeout_in_time after o timeoutMs (w : world) :
  timeoutMs ≤ TIMEOUT_MAX →
  Z.of_N after < timeoutMs →
  withTimeout op_wins_tie (Settles after o) timeoutMs w
  = (o, elapse (now w + Z.of_N after) (setTimeout timeoutMs w).2).
Proof.
  intros Hmax Hearly. rewrite withTimeout_unfold.
  rewrite race_operation_first; [reflexivity|].
  apply operation_first_early.
  rewrite setTimeout_now, clamp_in_range by lia. lia.
Qed.

(** C3.  For a timeout that a timer can hold (from 1 to [TIMEOUT_MAX]
    milliseconds), an operation that settles only after the configured
    duration makes [withTimeout] reject with the timeout error, whatever
    the operation's own later outcome [o] is, and the rejection happens at
    the configured duration after the call. *)
Theorem withTimeout_late after o timeoutMs (w : world) :
  1 ≤ timeoutMs ≤ TIMEOUT_MAX →
  timeoutMs < Z.of_N after →
  ∃ w', withTimeout op_wins_tie (Settles after o) timeoutMs w
        = (Rejected RequestTimedOut, w')
        ∧ now w' = now w + timeoutMs.
Proof.
  intros Hrange Hlate. rewrite withTimeout_overdue by (done || lia).
  eexists. split; reflexivity.
Qed.

(** C4.  For a timeout that a timer can hold (at most [TIMEOUT_MAX]
    milliseconds), an operation that settles strictly before the
    configured duration elapses decides the result: [withTimeout] settles
    with exactly the operation's outcome, at the instant the operation
    settles.  A value comes back unchanged, and a failure of the operation
    comes back as the operation's own reason, not as the timeout error. *)
Theorem withTimeout_early after o timeoutMs (w : world) :
  timeoutMs ≤ TIMEOUT_MAX →
  Z.of_N after < timeoutMs →
  ∃ w', withTimeout op_wins_tie (Settles after o) timeoutMs w = (o, w')
        ∧ now w' = now w + Z.of_N after
        ∧ (∀ e, o = Rejected (OperationFailure e) →
                (withTimeout op_wins_tie (Settles after o) timeoutMs w).1
                ≠ Rejected RequestTimedOut).
Proof.
  intros Hmax Hearly. rewrite withTimeout_unfold.
  rewrite race_operation_first.
  - eexists. split; [reflexivity|]. split; [reflexivity|].
    intros e ->. simpl. discriminate.
  - apply operation_first_early. rewrite setTimeout_now.
    rewrite clamp_in_range by lia. lia.
Qed.

(** C8, as the code has it.  The timer is never cancelled.  When the timer
    decides the race it has fired and is gone at that instant.  When the
    operation decides the race the timer is still armed at that instant,
    due at its own expiry, and it leaves the table only once the clock has
    passed that expiry. *)
Theorem withTimeout_timer_fate (p : promise) timeoutMs (w : world) :
  let id := timer_of w in
  let due := now w + clamp timeoutMs in
  let w' := (withTimeout op_wins_tie p timeoutMs w).2 in
  if operation_first op_wins_tie p due w
  then timers w' !! id = Some due
       ∧ now w' ≤ due
       ∧ ∀ t, due < t → timer_released id (elapse t w')
  else timer_released id w' ∧ now w' = due.
Proof.
  intros id due w'. subst w'. rewrite withTimeout_unfold.
  destruct (operation_first op_wins_tie p due w) eqn:Hfirst.
  - destruct p as [after o|]; [|done].
    rewrite race_operation_first by exact Hfirst.
    assert (Hle : now w + Z.of_N after ≤ due).
    { simpl in Hfirst. apply orb_true_iff in Hfirst as [H|H].
      - apply Z.ltb_lt in H. lia.
      - apply andb_true_iff in H as [H _]. apply Z.eqb_eq in H. lia. }
    split; [|split].
    + simpl. apply map_lookup_filter_Some. split; [|done].
      apply lookup_insert_eq.
    + simpl. lia.
    + intros t Ht. unfold timer_released. simpl.
      apply map_lookup_filter_None. right. intros due' Hin. simpl.
      apply map_lookup_filter_Some in Hin as [Hin _].
      rewrite lookup_insert_eq in Hin. injection Hin as <-. lia.
  - rewrite race_timer_first by exact Hfirst.
    split; [|reflexivity].
    unfold timer_released. simpl. apply lookup_delete_eq.
Qed.

End Deadline.

Import Samples.

Lemma withTimeout_late_witness :
  ∃ w', withTimeout true slow 5 world0 = (Rejected RequestTimedOut, w')
        ∧ now w' = 0 + 5.
Proof.
  apply (withTimeout_late true 50 (Fulfilled "late") 5 world0).
  - unfold TIMEOUT_MAX. lia.
  - lia.
Defined.

Lemma withTimeout_early_witness :
  ∃ w', withTimeout true quick 10000 world0 = (Fulfilled "v", w')
        ∧ now w' = 0 + 5.
Proof.
  destruct (withTimeout_early true 5 (Fulfilled "v") 10000
              (world0 (T:=string) (E:=string)))
    as (w' & Hcall & Hnow & _); [unfold TIMEOUT_MAX; lia|lia|].
  exists w'. split; [exact Hcall|exact Hnow].
Defined.

(** A timeout of [2 ^ 31] milliseconds overflows: the timer fires at once
    and an operation that settles after 5 ms is timed out. *)
Example withTimeout_overflow :
  (withTimeout true quick 2147483648 world0).1 = Rejected RequestTimedOut
  ∧ now (withTimeout true quick 2147483648 world0).2 = 0.
Proof. by vm_compute. Qed.

(** C8, as stated, fails: the operation settles after 5 ms, the race is
    decided, and the 10 s timer is still armed. *)
Lemma withTimeout_timer_still_armed :
  ¬ timer_released (timer_of (world0 (T:=string) (E:=string)))
      (withTimeout true quick 10000 world0).2.
Proof. unfold timer_released. vm_compute. discriminate. Qed.

End DeadlineFacts.

(** * Properties of the retry loop *)

Module RetryFacts.
Import Resilience.

Section Retry.

Context {T E : Type}.
Variable op_wins_tie : bool.
Variable fetchFn : operation (T:=T) (E:=E).
Variables maxRetries delay : Z.

Local Abbreviation world := (world (T:=T) (E:=E)).
Local Abbreviation promise := (promise (T:=T) (E:=E)).
Local Abbreviation loop := (retry_loop op_wins_tie fetchFn maxRetries delay).
Local Abbreviation try := (attempt op_wins_tie fetchFn).

(** ** The primitives leave the bookkeeping alone *)

Lemma race_calls (p : promise) id due (w : world) :
  calls (race op_wins_tie p id due w).2 = calls w.
Proof.
  destruct p as [after o|]; simpl; [|done].
  by destruct (_ || _).
Qed.

Lemma race_log (p : promise) id due (w : world) :
  log (race op_wins_tie p id due w).2 = log w.
Proof.
  destruct p as [after o|]; simpl; [|done].
  by destruct (_ || _).
Qed.

Lemma race_outcome_shift (p : promise) id id' ms (w w0 : world) :
  (race op_wins_tie p id (now w + clamp ms) w).1
  = (race op_wins_tie p id' (now w0 + clamp ms) w0).1.
Proof.
  destruct p as [after o|]; simpl; [|done].
  assert (Hlt : (now w + Z.of_N after <? now w + clamp ms)
                = (now w0 + Z.of_N after <? now w0 + clamp ms)).
  { destruct (Z.ltb_spec (now w + Z.of_N after) (now w + clamp ms));
      destruct (Z.ltb_spec (now w0 + Z.of_N after) (now w0 + clamp ms));
      (done || lia). }
  assert (Heq : (now w + Z.of_N after =? now w + clamp ms)
                = (now w0 + Z.of_N after =? now w0 + clamp ms)).
  { destruct (Z.eqb_spec (now w + Z.of_N after) (now w + clamp ms));
      destruct (Z.eqb_spec (now w0 + Z.of_N after) (now w0 + clamp ms));
      (done || lia). }
  rewrite Hlt, Heq. by destruct (_ || _).
Qed.

(** The outcome of a wrapped call does not depend on when it is made. *)
Lemma awaited_any_world (p : promise) (w : world) :
  (withTimeout_call op_wins_tie p None w).1 = awaited op_wins_tie p.
Proof.
  unfold awaited, withTimeout_call, withTimeout. simpl.
  apply (race_outcome_shift p _ _ SUPABASE_TIMEOUT
           (World (now w) (S (next_id w)) _ (calls w) (log w))
           (World 0 1%nat _ 0%nat [])).
Qed.

Lemma attempt_outcome_awaited (w : world) :
  attempt_outcome op_wins_tie fetchFn w
  = awaited op_wins_tie (fetchFn (calls w)).
Proof.
  unfold attempt_outcome, attempt, invoke.
  destruct (withTimeout_call _ _ _ _) as [o w2] eqn:Hcall. simpl.
  rewrite <- (awaited_any_world (fetchFn (calls w))
                (World (now w) (next_id w) (timers w) (S (calls w)) (log w))).
  by rewrite Hcall.
Qed.

Lemma attempt_calls (w : world) : calls (try w).2 = S (calls w).
Proof.
  unfold attempt, invoke, withTimeout_call, withTimeout. simpl.
  destruct (race _ _ _ _ _) as [o w2] eqn:Hrace. simpl.
  change w2 with (o, w2).2. rewrite <- Hrace. by rewrite race_calls.
Qed.

Lemma attempt_log (w : world) :
  log (try w).2
  = log w ++ [Attempt (calls w) (now w) (now (try w).2) (try w).1].
Proof.
  unfold attempt, invoke, withTimeout_call, withTimeout. simpl.
  destruct (race _ _ _ _ _) as [o w2] eqn:Hrace. simpl.
  change w2 with (o, w2).2. rewrite <- Hrace. by rewrite race_log.
Qed.

Lemma sleep_calls ms (w : world) : calls (sleep ms w) = calls w.
Proof. reflexivity. Qed.

Lemma sleep_now ms (w : world) : now (sleep ms w) = now w + clamp ms.
Proof. reflexivity. Qed.

Lemma sleep_log ms (w : world) :
  log (sleep ms w) = log w ++ [Sleep ms (now w) (now w + clamp ms)].
Proof. reflexivity. Qed.

Lemma backoff_calls i (w : world) :
  calls (backoff maxRetries delay i w) = calls w.
Proof. unfold backoff. by destruct (_ <? _). Qed.

Lemma backoff_last i (w : world) :
  maxRetries - 1 ≤ i → backoff maxRetries delay i w = w.
Proof.
  intros Hlast. unfold backoff.
  by destruct (Z.ltb_spec i (maxRetries - 1)); [lia|].
Qed.

Lemma backoff_between i (w : world) :
  i < maxRetries - 1 →
  backoff maxRetries delay i w = sleep (delay * (i + 1)) w.
Proof.
  intros Hmore. unfold backoff.
  by destruct (Z.ltb_spec i (maxRetries - 1)); [|lia].
Qed.

(** ** One turn of the loop *)

Lemma loop_exit fuel i e (w : world) :
  maxRetries ≤ i → loop (S fuel) i e w = Some (Rejected e, w).
Proof.
  intros Hdone. simpl. by destruct (Z.ltb_spec i maxRetries); [lia|].
Qed.

Lemma loop_success fuel i e (w : world) v :
  i < maxRetries → (try w).1 = Fulfilled v →
  loop (S fuel) i e w = Some (Fulfilled v, (try w).2).
Proof.
  intros Hin Htry. simpl. destruct (Z.ltb_spec i maxRetries); [|lia].
  destruct (attempt _ _ _) as [o w1]. simpl in Htry. by subst o.
Qed.

Lemma loop_failure fuel i e (w : world) r :
  i < maxRetries → (try w).1 = Rejected r →
  loop (S fuel) i e w
  = loop fuel (i + 1) r (backoff maxRetries delay i (try w).2).
Proof.
  intros Hin Htry. simpl. destruct (Z.ltb_spec i maxRetries); [|lia].
  destruct (attempt _ _ _) as [o w1]. simpl in Htry. by subst o.
Qed.

(** The fuel handed over by [fetchWithRetry] is enough: the loop always
    comes to an end. *)
Lemma loop_total fuel : ∀ i e (w : world),
  (Z.to_nat (maxRetries - i) < fuel)%nat → is_Some (loop fuel i e w).
Proof.
  induction fuel as [|fuel IH]; intros i e w Hfuel; [lia|].
  destruct (Z.lt_ge_cases i maxRetries) as [Hin|Hout].
  - destruct (try w).1 as [v|r] eqn:Htry.
    + rewrite (loop_success _ _ _ _ v) by done. by eexists.
    + rewrite (loop_failure _ _ _ _ r) by done. apply IH. lia.
  - rewrite loop_exit by done. by eexists.
Qed.

Lemma fetchWithRetry_total (w : world) :
  is_Some (fetchWithRetry op_wins_tie fetchFn maxRetries delay w).
Proof. apply loop_total. lia. Qed.


Lemma loop_runs fuel : ∀ i e (w : world) res w',
  loop fuel i e w = Some (res, w') →
  runs op_wins_tie fetchFn maxRetries delay i e w res w'.
Proof.
  induction fuel as [|fuel IH]; intros i e w res w' Hloop; [done|].
  destruct (Z.lt_ge_cases i maxRetries) as [Hin|Hout].
  - destruct (try w).1 as [v|r] eqn:Htry.
    + rewrite (loop_success _ _ _ _ v) in Hloop by done.
      injection Hloop as <- <-. by apply runs_success.
    + rewrite (loop_failure _ _ _ _ r) in Hloop by done.
      eapply runs_failure; eauto.
  - rewrite loop_exit in Hloop by done.
    injection Hloop as <- <-. by apply runs_exit.
Qed.

(** [n] failed attempts in a row take the loop [n] turns further; the
    reason kept in [lastError] is the one of the latest of them. *)
Lemma loop_failures (n : nat) : ∀ fuel i e (w : world),
  i + Z.of_nat n ≤ maxRetries →
  (∀ j, (j < n)%nat →
        ∃ r, awaited op_wins_tie (fetchFn (calls w + j)%nat) = Rejected r) →
  ∃ e' w',
    loop (n + fuel) i e w = loop fuel (i + Z.of_nat n) e' w'
    ∧ calls w' = (calls w + n)%nat
    ∧ match n with
      | O => e' = e ∧ w' = w
      | S m => awaited op_wins_tie (fetchFn (calls w + m)%nat) = Rejected e'
      end.
Proof.
  induction n as [|n IH]; intros fuel i e w Hbound Hfail.
  - exists e, w. rewrite Z.add_0_r, Nat.add_0_r. done.
  - destruct (Hfail 0%nat) as [r0 Hr0]; [lia|].
    rewrite Nat.add_0_r in Hr0.
    assert (Htry : (try w).1 = Rejected r0).
    { rewrite <- Hr0. apply attempt_outcome_awaited. }
    set (w2 := backoff maxRetries delay i (try w).2).
    assert (Hcalls2 : calls w2 = S (calls w)).
    { unfold w2. by rewrite backoff_calls, attempt_calls. }
    destruct (IH fuel (i + 1) r0 w2) as (e' & w' & Hloop & Hcalls & Hlast).
    { lia. }
    { intros j Hj. rewrite Hcalls2.
      replace (S (calls w) + j)%nat with (calls w + S j)%nat by lia.
      apply Hfail. lia. }
    exists e', w'. split; [|split].
    + change (S n + fuel)%nat with (S (n + fuel)).
      rewrite (loop_failure _ _ _ _ r0) by (done || lia).
      fold w2. rewrite Hloop. f_equal. lia.
    + lia.
    + destruct n as [|m].
      * destruct Hlast as [-> _]. by rewrite Nat.add_0_r.
      * rewrite Hcalls2 in Hlast.
        by replace (calls w + S m)%nat with (S (calls w) + m)%nat by lia.
Qed.

(** C1.  When the operation fails on every attempt (its [k]-th invocation,
    awaited under the deadline, rejects with [r k]) and at least one attempt
    is allowed, [fetchWithRetry] invokes the operation exactly [maxRetries]
    times and then rejects with the reason of the last of these attempts;
    the reasons of the earlier attempts are not part of the result. *)
Theorem fetchWithRetry_exhausted (r : nat → reason) (w : world) :
  1 ≤ maxRetries →
  (∀ k, awaited op_wins_tie (fetchFn k) = Rejected (r k)) →
  ∃ w',
    fetchWithRetry op_wins_tie fetchFn maxRetries delay w
    = Some (Rejected (r (calls w + Z.to_nat maxRetries - 1)%nat), w')
    ∧ calls w' = (calls w + Z.to_nat maxRetries)%nat.
Proof.
  intros Hpos Hfail. unfold fetchWithRetry.
  destruct (loop_failures (Z.to_nat maxRetries) 1 0 Undefined w)
    as (e' & w' & Hloop & Hcalls & Hlast).
  { lia. }
  { intros j _. eauto. }
  exists w'. split; [|done].
  replace (S (Z.to_nat maxRetries)) with (Z.to_nat maxRetries + 1)%nat by lia.
  rewrite Hloop, loop_exit by lia.
  destruct (Z.to_nat maxRetries) as [|m] eqn:Hm; [lia|].
  rewrite Hfail in Hlast. injection Hlast as <-.
  repeat f_equal. lia.
Qed.

(** C2.  When the operation succeeds with [v] on attempt [k ≤ maxRetries]
    and fails on every earlier attempt, [fetchWithRetry] returns [v] after
    exactly [k] invocations: there is no attempt [k + 1]. *)
Theorem fetchWithRetry_first_success (k : nat) (v : T) (w : world) :
  (1 ≤ k)%nat →
  Z.of_nat k ≤ maxRetries →
  (∀ j, (j < k - 1)%nat →
        ∃ r, awaited op_wins_tie (fetchFn (calls w + j)%nat) = Rejected r) →
  awaited op_wins_tie (fetchFn (calls w + (k - 1))%nat) = Fulfilled v →
  ∃ w',
    fetchWithRetry op_wins_tie fetchFn maxRetries delay w
    = Some (Fulfilled v, w')
    ∧ calls w' = (calls w + k)%nat.
Proof.
  intros Hk Hle Hfail Hok. unfold fetchWithRetry.
  destruct (loop_failures (k - 1) (S (Z.to_nat maxRetries - (k - 1)))
              0 Undefined w)
    as (e' & w' & Hloop & Hcalls & _).
  { lia. }
  { done. }
  replace (S (Z.to_nat maxRetries))
    with (k - 1 + S (Z.to_nat maxRetries - (k - 1)))%nat by lia.
  rewrite Hloop.
  assert (Htry : (try w').1 = Fulfilled v).
  { rewrite <- Hok, <- Hcalls. apply attempt_outcome_awaited. }
  rewrite (loop_success _ _ _ _ v) by (done || lia).
  eexists. split; [done|]. rewrite attempt_calls. lia.
Qed.

(** C10.  With [maxRetries ≤ 0] the loop body is never entered: the
    operation is not invoked, nothing happens in the world, and the call
    rejects with the value of the never-assigned [lastError]. *)
Theorem fetchWithRetry_no_attempt (w : world) :
  maxRetries ≤ 0 →
  fetchWithRetry op_wins_tie fetchFn maxRetries delay w
  = Some (Rejected Undefined, w).
Proof. intros Hnone. unfold fetchWithRetry. by apply loop_exit. Qed.


(** ** The log of a run *)

Local Abbreviation run := (runs op_wins_tie fetchFn maxRetries delay).

Lemma runs_exit_inv i e (w : world) res w' :
  maxRetries ≤ i → run i e w res w' → res = Rejected e ∧ w' = w.
Proof. intros Hout Hrun. inversion Hrun; subst; (done || lia). Qed.

(** What a failed attempt and the wait after it add to the log. *)
Lemma failure_log i (w : world) r :
  (try w).1 = Rejected r →
  log (backoff maxRetries delay i (try w).2)
  = log w ++
    Attempt (calls w) (now w) (now (try w).2) (Rejected r) ::
    (if i <? maxRetries - 1
     then [Sleep (delay * (i + 1)) (now (try w).2)
             (now (try w).2 + clamp (delay * (i + 1)))]
     else []).
Proof.
  intros Htry. unfold backoff. destruct (i <? maxRetries - 1).
  - rewrite sleep_log, attempt_log, Htry. by rewrite <- app_assoc.
  - by rewrite attempt_log, Htry.
Qed.

Lemma runs_log_extends i e (w : world) res w' :
  run i e w res w' → ∃ L, log w' = log w ++ L.
Proof.
  induction 1 as [i e w Hout|i e w v Hin Htry|i e w r res w' Hin Htry _ IH].
  - exists []. by rewrite app_nil_r.
  - eexists. apply attempt_log.
  - destruct IH as [L2 HL2]. rewrite (failure_log _ _ r) in HL2 by done.
    eexists. rewrite HL2, <- app_assoc. done.
Qed.

(** A run that enters the loop body starts with an attempt. *)
Lemma runs_head i e (w : world) res w' :
  run i e w res w' → i < maxRetries →
  ∃ f o L, log w' = log w ++ Attempt (calls w) (now w) f o :: L.
Proof.
  intros Hrun Hin. inversion Hrun as [|? ? ? v _ Htry|? ? ? r ? ? _ Htry Hrest];
    subst.
  - lia.
  - exists (now (try w).2), (try w).1, []. apply attempt_log.
  - destruct (runs_log_extends _ _ _ _ _ Hrest) as [L2 HL2].
    rewrite (failure_log _ _ r) in HL2 by done.
    do 3 eexists. rewrite HL2, <- app_assoc. done.
Qed.


(** Position [2 * j] of the log of a run holds its attempt number [j] (from
    zero), position [2 * j + 1] the wait that follows it.  After a failed
    attempt that is not the last one allowed comes the wait of
    [delay * (i + j + 1)], then the next attempt; after the last one allowed
    comes nothing. *)
Lemma runs_backoff i e (w : world) res w' :
  run i e w res w' →
  ∀ L, log w' = log w ++ L →
  ∀ (j : nat) k s f r,
    L !! (2 * j)%nat = Some (Attempt k s f (Rejected r)) →
    k = (calls w + j)%nat
    ∧ (i + Z.of_nat j < maxRetries - 1 →
       L !! (2 * j + 1)%nat
       = Some (Sleep (delay * (i + Z.of_nat j + 1)) f
                 (f + clamp (delay * (i + Z.of_nat j + 1)))) ∧
       ∃ f' o, L !! (2 * j + 2)%nat
               = Some (Attempt (S k)
                         (f + clamp (delay * (i + Z.of_nat j + 1))) f' o))
    ∧ (maxRetries - 1 ≤ i + Z.of_nat j →
       L !! (2 * j + 1)%nat = None ∧ res = Rejected r ∧ now w' = f).
Proof.
  induction 1 as [i e w Hout|i e w v Hin Htry|i e w r res w' Hin Htry Hrest IH];
    intros L HL j k s f r0 Hj.
  - rewrite <- (app_nil_r (log w)) in HL at 1.
    apply app_inv_head in HL. subst L. done.
  - rewrite attempt_log, Htry in HL. apply app_inv_head in HL. subst L.
    destruct j as [|j]; [done|].
    replace (2 * S j)%nat with (S (S (2 * j))) in Hj by lia. done.
  - destruct (runs_log_extends _ _ _ _ _ Hrest) as [L2 HL2].
    pose proof HL2 as HL'. rewrite (failure_log _ _ r) in HL' by done.
    rewrite HL, <- app_assoc in HL'. apply app_inv_head in HL'. subst L.
    destruct (Z.ltb_spec i (maxRetries - 1)) as [Hmore|Hlast].
    + (* a wait follows, then the next turn *)
      destruct j as [|j].
      * simpl in Hj. injection Hj as <- <- <- <-.
        split; [lia|]. split; [intros _|lia].
        replace (i + Z.of_nat 0 + 1) with (i + 1) by lia.
        split; [done|]. simpl.
        destruct (runs_head _ _ _ _ _ Hrest) as (f' & o & L' & Hhead); [lia|].
        rewrite HL2 in Hhead. apply app_inv_head in Hhead. subst L2.
        exists f', o. simpl.
        rewrite backoff_between by done.
        by rewrite sleep_calls, sleep_now, attempt_calls.
      * replace (2 * S j)%nat with (S (S (2 * j))) in Hj by lia.
        replace (2 * S j + 1)%nat with (S (S (2 * j + 1))) by lia.
        replace (2 * S j + 2)%nat with (S (S (2 * j + 2))) by lia.
        replace (i + Z.of_nat (S j)) with (i + 1 + Z.of_nat j) by lia.
        change (L2 !! (2 * j)%nat = Some (Attempt k s f (Rejected r0))) in Hj.
        destruct (IH L2 HL2 j k s f r0 Hj) as [Hk Hrest'].
        split; [|exact Hrest'].
        rewrite backoff_calls, attempt_calls in Hk. lia.
    + (* the last attempt allowed: the loop is left *)
      assert (Hout : maxRetries ≤ i + 1) by lia.
      destruct (runs_exit_inv _ _ _ _ _ Hout Hrest) as [-> Hw'].
      rewrite backoff_last in Hw' by done. subst w'.
      rewrite backoff_last in HL2 by done.
      rewrite <- (app_nil_r (log _)) in HL2 at 1.
      apply app_inv_head in HL2. subst L2.
      destruct j as [|j].
      * simpl in Hj. injection Hj as <- <- <- <-.
        split; [lia|]. split; [lia|]. done.
      * replace (2 * S j)%nat with (S (S (2 * j))) in Hj by lia. done.
Qed.

(** A run never ends on a wait. *)
Lemma runs_last i e (w : world) res w' :
  run i e w res w' →
  ∀ L, log w' = log w ++ L → ∀ ms s f, last L ≠ Some (Sleep ms s f).
Proof.
  induction 1 as [i e w Hout|i e w v Hin Htry|i e w r res w' Hin Htry Hrest IH];
    intros L HL ms s f.
  - rewrite <- (app_nil_r (log w)) in HL at 1.
    apply app_inv_head in HL. by subst L.
  - rewrite attempt_log in HL. apply app_inv_head in HL. by subst L.
  - destruct (runs_log_extends _ _ _ _ _ Hrest) as [L2 HL2].
    pose proof HL2 as HL'. rewrite (failure_log _ _ r) in HL' by done.
    rewrite HL, <- app_assoc in HL'. apply app_inv_head in HL'. subst L.
    destruct (Z.ltb_spec i (maxRetries - 1)) as [Hmore|Hlast].
    + destruct (runs_head _ _ _ _ _ Hrest) as (f' & o & L' & Hhead); [lia|].
      rewrite HL2 in Hhead. apply app_inv_head in Hhead.
      specialize (IH L2 HL2 ms s f). subst L2.
      simpl app. by rewrite !last_cons_cons.
    + assert (Hout : maxRetries ≤ i + 1) by lia.
      destruct (runs_exit_inv _ _ _ _ _ Hout Hrest) as [_ Hw'].
      rewrite <- Hw' in HL2.
      rewrite <- (app_nil_r (log _)) in HL2 at 1.
      apply app_inv_head in HL2. by subst L2.
Qed.


(** C5.  In every run, when attempt number [a] (counted from one) fails
    and attempts remain ([a < maxRetries]), the log continues with a wait
    requested as [delay * a] that starts when the attempt failed, and the
    next invocation starts when that wait is over: linear backoff, nothing
    added to it.  When [delay * a] is a delay a timer can hold (from 1 to
    [TIMEOUT_MAX] milliseconds), the wait lasts exactly [delay * a].  When
    [a] is the last attempt allowed, nothing follows it: the call rejects
    at the instant the attempt failed.  No run ends on a wait. *)
Theorem fetchWithRetry_backoff (w : world) res w' L (a k : nat) s f r :
  fetchWithRetry op_wins_tie fetchFn maxRetries delay w = Some (res, w') →
  log w' = log w ++ L →
  (1 ≤ a)%nat →
  L !! (2 * (a - 1))%nat = Some (Attempt k s f (Rejected r)) →
  k = (calls w + (a - 1))%nat
  ∧ (Z.of_nat a < maxRetries →
       ∃ f1,
         L !! (2 * a - 1)%nat = Some (Sleep (delay * Z.of_nat a) f f1)
         ∧ (∃ f' o, L !! (2 * a)%nat = Some (Attempt (S k) f1 f' o))
         ∧ (1 ≤ delay * Z.of_nat a ≤ TIMEOUT_MAX →
            f1 = f + delay * Z.of_nat a))
  ∧ (maxRetries ≤ Z.of_nat a →
       L !! (2 * a - 1)%nat = None ∧ res = Rejected r ∧ now w' = f)
  ∧ (∀ ms s' f', last L ≠ Some (Sleep ms s' f')).
Proof.
  intros Hrun HL Ha Hpos. apply loop_runs in Hrun.
  destruct (runs_backoff _ _ _ _ _ Hrun L HL (a - 1) k s f r Hpos)
    as (Hk & Hmore & Hlast).
  replace (0 + Z.of_nat (a - 1) + 1) with (Z.of_nat a) in Hmore by lia.
  replace (2 * (a - 1) + 1)%nat with (2 * a - 1)%nat in Hmore, Hlast by lia.
  replace (2 * (a - 1) + 2)%nat with (2 * a)%nat in Hmore by lia.
  split; [done|]. split; [|split].
  - intros Hlt. destruct Hmore as [Hsleep Hnext]; [lia|].
    exists (f + clamp (delay * Z.of_nat a)).
    split; [done|]. split; [done|].
    intros Hrange. rewrite DeadlineFacts.clamp_in_range by lia. done.
  - intros Hge. apply Hlast. lia.
  - by apply (runs_last _ _ _ _ _ Hrun).
Qed.

(** Each attempt of the log is a call of [withTimeout] on what the
    operation returned, with the timeout left to its default. *)
Lemma attempt_wrapped (w : world) :
  ∃ wk wk',
    now wk = now w
    ∧ withTimeout_call op_wins_tie (fetchFn (calls w)) None wk
      = ((try w).1, wk')
    ∧ now wk' = now (try w).2.
Proof.
  unfold attempt, invoke.
  destruct (withTimeout_call _ _ _ _) as [o w2] eqn:Hcall.
  eexists _, w2. split; [|split; [exact Hcall|]]; done.
Qed.

Lemma runs_wrapped i e (w : world) res w' :
  run i e w res w' →
  ∀ L, log w' = log w ++ L →
  ∀ k s f o, Attempt k s f o ∈ L →
    ∃ wk wk',
      now wk = s
      ∧ withTimeout_call op_wins_tie (fetchFn k) None wk = (o, wk')
      ∧ now wk' = f.
Proof.
  induction 1 as [i e w Hout|i e w v Hin Htry|i e w r res w' Hin Htry Hrest IH];
    intros L HL k s f o Hel.
  - rewrite <- (app_nil_r (log w)) in HL at 1.
    apply app_inv_head in HL. subst L. by apply elem_of_nil in Hel.
  - rewrite attempt_log in HL. apply app_inv_head in HL. subst L.
    apply list_elem_of_singleton in Hel. injection Hel as -> -> -> ->.
    apply attempt_wrapped.
  - destruct (runs_log_extends _ _ _ _ _ Hrest) as [L2 HL2].
    pose proof HL2 as HL'. rewrite (failure_log _ _ r) in HL' by done.
    rewrite HL, <- app_assoc in HL'. apply app_inv_head in HL'. subst L.
    apply elem_of_cons in Hel as [Hel|Hel].
    + injection Hel as -> -> -> ->. rewrite <- Htry. apply attempt_wrapped.
    + apply elem_of_app in Hel as [Hel|Hel]; [|by eapply IH].
      destruct (i <? maxRetries - 1).
      * by apply list_elem_of_singleton in Hel.
      * by apply elem_of_nil in Hel.
Qed.

(** C7.  [SUPABASE_TIMEOUT] is 10000 milliseconds, the defaults of
    [fetchWithRetry] are three attempts and a delay of 1000 milliseconds,
    and every attempt logged by a run is a call of [withTimeout] on what the
    operation returned, under the default timeout.  So an attempt whose
    operation is still unsettled after these ten seconds is a failed
    attempt: it rejects with the timeout error ten seconds after it
    started. *)
Theorem attempts_under_default_deadline
    (w : world) res w' L (k : nat) s f o :
  fetchWithRetry op_wins_tie fetchFn maxRetries delay w = Some (res, w') →
  log w' = log w ++ L →
  Attempt k s f o ∈ L →
  SUPABASE_TIMEOUT = 10000
  ∧ fetchWithRetry_call op_wins_tie fetchFn None None
    = fetchWithRetry op_wins_tie fetchFn 3 1000
  ∧ (∃ wk wk',
        now wk = s
        ∧ withTimeout op_wins_tie (fetchFn k) SUPABASE_TIMEOUT wk = (o, wk')
        ∧ now wk' = f)
  ∧ (overdue (fetchFn k) SUPABASE_TIMEOUT →
       o = Rejected RequestTimedOut ∧ f = s + 10000).
Proof.
  intros Hrun HL Hel. apply loop_runs in Hrun.
  destruct (runs_wrapped _ _ _ _ _ Hrun L HL k s f o Hel)
    as (wk & wk' & Hs & Hcall & Hf).
  split; [done|]. split; [done|]. split; [by exists wk, wk'|].
  intros Hover. unfold withTimeout_call in Hcall. simpl in Hcall.
  rewrite DeadlineFacts.withTimeout_overdue in Hcall
    by (done || (unfold SUPABASE_TIMEOUT, TIMEOUT_MAX; lia)).
  injection Hcall as <- <-. split; [done|].
  rewrite <- Hf, <- Hs. reflexivity.
Qed.

End Retry.

(** C6.  With [maxRetries = 1] the operation is invoked exactly once and
    the result of [fetchWithRetry] is the outcome of that single
    invocation, awaited under the default deadline: the operation's own
    value or failure when it settles within the ten seconds, at the
    instant it settles, and the timeout error after ten seconds when it
    does not.  The call settles in the world in which the attempt
    settled: the log gains that one attempt and no wait. *)
Theorem fetchWithRetry_single_attempt {T E : Type} (op_wins_tie : bool)
    (fetchFn : operation (T:=T) (E:=E)) (delay : Z) (w : world) :
  let res := awaited op_wins_tie (fetchFn (calls w)) in
  ∃ w',
    fetchWithRetry op_wins_tie fetchFn 1 delay w = Some (res, w')
    ∧ attempt op_wins_tie fetchFn w = (res, w')
    ∧ calls w' = S (calls w)
    ∧ log w' = log w ++ [Attempt (calls w) (now w) (now w') res]
    ∧ (∀ after o,
         fetchFn (calls w) = Settles after o →
         Z.of_N after < SUPABASE_TIMEOUT →
         res = o ∧ now w' = now w + Z.of_N after)
    ∧ (overdue (fetchFn (calls w)) SUPABASE_TIMEOUT →
       res = Rejected RequestTimedOut ∧ now w' = now w + SUPABASE_TIMEOUT).
Proof.
  intros res. subst res.
  pose proof (attempt_outcome_awaited op_wins_tie fetchFn w) as Hout.
  unfold attempt_outcome in Hout.
  pose proof (attempt_calls op_wins_tie fetchFn w) as Hcalls.
  pose proof (attempt_log op_wins_tie fetchFn w) as Hlog.
  destruct (attempt_wrapped op_wins_tie fetchFn w)
    as (wk & wk' & Hs & Hcall & Hf).
  assert (Hrun : fetchWithRetry op_wins_tie fetchFn 1 delay w
                 = Some (attempt op_wins_tie fetchFn w)).
  { unfold fetchWithRetry. change (S (Z.to_nat 1)) with 2%nat.
    destruct (attempt op_wins_tie fetchFn w) as [o w1] eqn:Htry.
    destruct o as [v|r].
    - rewrite (loop_success _ _ _ _ _ _ _ _ v) by (rewrite ?Htry; done).
      by rewrite Htry.
    - rewrite (loop_failure _ _ _ _ _ _ _ _ r) by (rewrite ?Htry; done).
      rewrite backoff_last by done. rewrite loop_exit by done.
      by rewrite Htry. }
  unfold withTimeout_call in Hcall. simpl in Hcall.
  destruct (attempt op_wins_tie fetchFn w) as [o w1]. simpl in *. subst o.
  exists w1. split; [done|]. split; [done|]. split; [done|].
  split; [done|]. split.
  - intros after o Hfn Hlt. rewrite Hfn in Hcall |- *.
    rewrite DeadlineFacts.withTimeout_in_time in Hcall
      by (done || (unfold SUPABASE_TIMEOUT, TIMEOUT_MAX; lia)).
    injection Hcall as Ho Hw. split; [done|].
    rewrite <- Hf, <- Hw, <- Hs. reflexivity.
  - intros Hover.
    rewrite DeadlineFacts.withTimeout_overdue in Hcall
      by (done || (unfold SUPABASE_TIMEOUT, TIMEOUT_MAX; lia)).
    injection Hcall as Ho Hw. split; [done|].
    rewrite <- Hf, <- Hw, <- Hs. reflexivity.
Qed.

Import Samples.

Lemma fetchWithRetry_exhausted_witness :
  ∃ w', fetchWithRetry true always_fails 3 1000 world0
        = Some (Rejected (OperationFailure 2%nat), w')
        ∧ calls w' = 3%nat.
Proof.
  apply (fetchWithRetry_exhausted true always_fails 3 1000
           (λ k, OperationFailure k) world0).
  - lia.
  - intros k. reflexivity.
Defined.

Lemma fetchWithRetry_first_success_witness :
  ∃ w', fetchWithRetry true flaky 3 1000 world0 = Some (Fulfilled "ok", w')
        ∧ calls w' = 3%nat.
Proof.
  apply (fetchWithRetry_first_success true flaky 3 1000 3 "ok" world0).
  - lia.
  - lia.
  - intros j Hj. destruct j as [|[|j]]; [eexists; reflexivity..|lia].
  - reflexivity.
Defined.

Lemma fetchWithRetry_no_attempt_witness :
  fetchWithRetry true flaky 0 1000 world0 = Some (Rejected Undefined, world0).
Proof. apply (fetchWithRetry_no_attempt true flaky 0 1000 world0). lia. Defined.

Lemma fetchWithRetry_backoff_witness :
  ∃ f1, log flaky_end !! 3%nat = Some (Sleep (1000 * 2) 11020 f1)
        ∧ (∃ f' o, log flaky_end !! 4%nat = Some (Attempt 2 f1 f' o))
        ∧ f1 = 11020 + 1000 * 2.
Proof.
  destruct (fetchWithRetry_backoff true flaky 3 1000 world0
              flaky_result flaky_end (log flaky_end)
              2 1 1020 11020 RequestTimedOut)
    as (_ & Hmore & _).
  - vm_compute. reflexivity.
  - vm_compute. reflexivity.
  - lia.
  - vm_compute. reflexivity.
  - destruct Hmore as (f1 & Hsleep & Hnext & Hlength); [lia|].
    exists f1. split; [exact Hsleep|]. split; [exact Hnext|].
    apply Hlength. unfold TIMEOUT_MAX. lia.
Defined.

(** The scenario "fails twice, then succeeds" with the default arguments:
    three attempts, a wait of 1000 ms, a wait of 2000 ms, and the value of
    the third attempt. *)
Example flaky_scenario :
  fetchWithRetry_call true flaky None None world0
  = Some (Fulfilled "ok", flaky_end)
  ∧ log flaky_end
    = [Attempt 0 0 20 (Rejected (OperationFailure "boom"));
       Sleep 1000 20 1020;
       Attempt 1 1020 11020 (Rejected RequestTimedOut);
       Sleep 2000 11020 13020;
       Attempt 2 13020 13320 (Fulfilled "ok")]
  ∧ now flaky_end = 13320.
Proof. by vm_compute. Qed.

(** Three quick failures: the call is over after 3021 ms, and the three
    timers of [withTimeout] are still armed at that instant. *)
Example always_fails_scenario :
  ∃ w', fetchWithRetry true always_fails 3 1000 world0
        = Some (Rejected (OperationFailure 2%nat), w')
        ∧ now w' = 3021
        ∧ timers w' = {[ 0%nat := 10000; 2%nat := 11007; 4%nat := 13014 ]}.
Proof. eexists. split; [by vm_compute|]. split; [done|]. by vm_compute. Qed.

Lemma attempts_under_default_deadline_witness :
  Rejected RequestTimedOut = Rejected (T:=string) (E:=string) RequestTimedOut
  ∧ 11020 = 1020 + 10000.
Proof.
  destruct (attempts_under_default_deadline true flaky 3 1000 world0
              flaky_result flaky_end (log flaky_end)
              1 1020 11020 (Rejected RequestTimedOut))
    as (_ & _ & _ & Hover).
  - vm_compute. reflexivity.
  - vm_compute. reflexivity.
  - vm_compute. set_solver.
  - apply Hover. exact I.
Defined.

End RetryFacts.

(** * Properties of novel creation *)

Module NovelFacts.
Import Novels.

Lemma truthy_not_nullish v : truthy v = true → nullish v = false.
Proof. by destruct v. Qed.

Lemma property_message_defined v :
  nullish v = false → is_Some (property_message v).
Proof. destruct v; simpl; (done || by eexists). Qed.

Section WithBackend.

Variable B : Backend.

(** [uploadNovelCover] rethrows what it caught: a rejection of the upload,
    or the truthy [error] field of its answer. *)
Lemma uploadNovelCover_raised file v :
  (uploadNovelCover B file).1 = Raised v →
  (∃ fileName, upload B fileName file = Raised v) ∨ truthy v = true.
Proof.
  unfold uploadNovelCover.
  destruct (upload B _ file) as [uploadError|v'] eqn:Hupload.
  - destruct (truthy uploadError) eqn:Htruthy; simpl; [|done].
    intros [= <-]. by right.
  - simpl. intros [= <-]. left. eauto.
Qed.

(** What the [catch] clause of [createNovel] can receive. *)
Lemma try_block_raised formData coverImage userId v :
  (try_block B formData coverImage userId).1 = Raised v →
  (∃ fileName file, upload B fileName file = Raised v)
  ∨ (∃ row, insert B row = Raised v)
  ∨ truthy v = true.
Proof.
  unfold try_block. destruct coverImage as [file|].
  - destruct (uploadNovelCover B file) as [[url|v'] fx] eqn:Hcover.
    + destruct (insert B _) as [[data error]|v'] eqn:Hinsert.
      * destruct (truthy error) eqn:Htruthy; simpl; [|done].
        intros [= <-]. by right; right.
      * simpl. intros [= <-]. right; left. eauto.
    + simpl. intros [= ->].
      destruct (uploadNovelCover_raised file v) as [[fileName Hup]|Htruthy].
      * by rewrite Hcover.
      * left. eauto.
      * by right; right.
  - destruct (insert B _) as [[data error]|v'] eqn:Hinsert.
    + destruct (truthy error) eqn:Htruthy; simpl; [|done].
      intros [= <-]. by right; right.
    + simpl. intros [= <-]. right; left. eauto.
Qed.

(** C9, as the code has it.  When no rejected promise of the collaborators
    carries [null] or [undefined], [createNovel] never rejects.  It returns
    [success = true] when the [try] block ran to its end, and otherwise
    [success = false] with [error] set to the [message] property of the
    failure that was caught: the text of an [Error] object, [undefined] for
    a failure without a message. *)
Theorem createNovel_absorbs_failures formData coverImage userId :
  rejections_not_nullish B →
  ∃ r,
    (createNovel B formData coverImage userId).1 = Returns r
    ∧ ((try_block B formData coverImage userId).1 = Resolved ()
       ∧ success r = true ∧ error r = JUndefined
       ∨ ∃ v, (try_block B formData coverImage userId).1 = Raised v
              ∧ success r = false
              ∧ property_message v = Some (error r)
              ∧ (∀ text, v = JObj (JStr text) → error r = JStr text)).
Proof.
  intros [Hupload Hinsert]. unfold createNovel.
  destruct (try_block B formData coverImage userId) as [[[]|v] fx] eqn:Htry.
  - eexists. split; [done|]. by left.
  - assert (Hv : nullish v = false).
    { destruct (try_block_raised formData coverImage userId v)
        as [(fileName & file & Hup)|[[row Hins]|Htruthy]].
      - by rewrite Htry.
      - by eapply Hupload.
      - by eapply Hinsert.
      - by apply truthy_not_nullish. }
    unfold catch_block.
    destruct (property_message_defined v Hv) as [message Hmessage].
    rewrite Hmessage. simpl. eexists. split; [done|]. right.
    exists v. simpl. split; [done|]. split; [done|]. split; [done|].
    intros text ->. simpl in Hmessage. by injection Hmessage as <-.
Qed.

End WithBackend.

Import Samples.

Lemma createNovel_absorbs_failures_witness :
  ∃ r, (createNovel duplicate_title form1 (Some cover1) "user-1").1 = Returns r
       ∧ success r = false ∧ error r = JStr "duplicate title".
Proof.
  destruct (createNovel_absorbs_failures duplicate_title form1 (Some cover1)
              "user-1")
    as (r & Hret & [(Hok & _)|(v & Hv & Hfalse & _ & Htext)]).
  - split; intros; discriminate.
  - discriminate.
  - exists r. split; [exact Hret|]. split; [exact Hfalse|].
    apply Htext. vm_compute in Hv. by injection Hv as <-.
Defined.

(** C9, as stated, fails.  When the upload promise rejects with
    [undefined], reading [error.message] in the [catch] clause raises a
    [TypeError] and [createNovel] rejects.  When the insert answers with an
    error object that has no [message], [createNovel] returns
    [success = false] with no error message. *)
Lemma createNovel_can_reject :
  ¬ (∃ r, (createNovel storage_down form1 (Some cover1) "user-1").1 = Returns r
          ∧ (success r = true
             ∨ success r = false ∧ ∃ text, error r = JStr text))
  ∧ ¬ (∃ r, (createNovel bare_error form1 None "user-1").1 = Returns r
            ∧ (success r = true
               ∨ success r = false ∧ ∃ text, error r = JStr text)).
Proof.
  split.
  - intros (r & Hret & _). vm_compute in Hret. discriminate.
  - intros (r & Hret & Hshape). vm_compute in Hret. injection Hret as <-.
    destruct Hshape as [Hok|(_ & text & Htext)]; discriminate.
Qed.

End NovelFacts.


(** * Further properties of the deadline wrapper *)

Module DeadlineExtras.
Import Resilience.

Section Deadline.

Context {T E : Type}.
Variable op_wins_tie : bool.

Local Abbreviation world := (world (T:=T) (E:=E)).
Local Abbreviation promise := (promise (T:=T) (E:=E)).

Lemma operation_first_inv (p : promise) due (w : world) :
  operation_first op_wins_tie p due w = true →
  ∃ after o, p = Settles after o ∧ now w + Z.of_N after ≤ due.
Proof.
  destruct p as [after o|]; simpl; [|done].
  intros Hfirst. exists after, o. split; [done|].
  apply orb_true_iff in Hfirst as [H|H].
  - apply Z.ltb_lt in H. lia.
  - apply andb_true_iff in H as [H _]. apply Z.eqb_eq in H. lia.
Qed.

(** The two ways a wrapped call can settle, with the instant of each. *)
Lemma withTimeout_cases (p : promise) timeoutMs (w : world) :
  (∃ w', withTimeout op_wins_tie p timeoutMs w = (Rejected RequestTimedOut, w')
         ∧ now w' = now w + clamp timeoutMs
         ∧ operation_first op_wins_tie p (now w + clamp timeoutMs) w = false)
  ∨ (∃ after o w',
        p = Settles after o
        ∧ withTimeout op_wins_tie p timeoutMs w = (o, w')
        ∧ now w' = now w + Z.of_N after
        ∧ Z.of_N after ≤ clamp timeoutMs).
Proof.
  rewrite DeadlineFacts.withTimeout_unfold.
  destruct (operation_first op_wins_tie p (now w + clamp timeoutMs) w)
    eqn:Hfirst.
  - right. destruct (operation_first_inv _ _ _ Hfirst) as (after & o & -> & Hle).
    exists after, o. eexists. split; [done|].
    rewrite DeadlineFacts.race_operation_first by exact Hfirst.
    split; [done|]. split; [done|]. lia.
  - left. eexists. rewrite DeadlineFacts.race_timer_first by exact Hfirst.
    done.
Qed.

(** X1.  For a timeout that a timer can hold (from 1 to [TIMEOUT_MAX]
    milliseconds), whatever the operation does, even if it never settles,
    the wrapped call settles no later than [timeoutMs] after it was made,
    and it settles either with the timeout error at exactly that instant
    or with the operation's own settlement at the instant the operation
    settled. *)
Theorem withTimeout_settles_by_deadline (p : promise) timeoutMs (w : world) :
  1 ≤ timeoutMs ≤ TIMEOUT_MAX →
  let o := (withTimeout op_wins_tie p timeoutMs w).1 in
  let w' := (withTimeout op_wins_tie p timeoutMs w).2 in
  now w ≤ now w' ≤ now w + timeoutMs
  ∧ (o = Rejected RequestTimedOut ∧ now w' = now w + timeoutMs
     ∨ ∃ after, p = Settles after o ∧ now w' = now w + Z.of_N after).
Proof.
  intros Hrange o w'. subst o w'.
  assert (Hclamp : clamp timeoutMs = timeoutMs)
    by (apply DeadlineFacts.clamp_in_range; lia).
  destruct (withTimeout_cases p timeoutMs w)
    as [(w' & -> & Hnow & _)|(after & o & w' & -> & -> & Hnow & Hle)]; simpl.
  - split; [lia|]. left. split; [done|]. lia.
  - split; [lia|]. right. by exists after.
Qed.

End Deadline.

Import Samples.

Lemma withTimeout_settles_by_deadline_witness :
  0 ≤ now (withTimeout true (Pending (T:=string) (E:=string)) 5 world0).2
    ≤ 0 + 5.
Proof.
  destruct (withTimeout_settles_by_deadline true
              (Pending (T:=string) (E:=string)) 5 world0) as [Hnow _].
  - unfold TIMEOUT_MAX. lia.
  - exact Hnow.
Defined.

End DeadlineExtras.

(** * Further properties of the retry loop *)

Module RetryExtras.
Import Resilience LogViews.

Section Retry.

Context {T E : Type}.
Variable op_wins_tie : bool.
Variable fetchFn : operation (T:=T) (E:=E).
Variables maxRetries delay : Z.

Local Abbreviation world := (world (T:=T) (E:=E)).
Local Abbreviation try := (attempt op_wins_tie fetchFn).
Local Abbreviation run := (runs op_wins_tie fetchFn maxRetries delay).
Local Abbreviation pause := (backoff maxRetries delay).

(** An attempt takes between nothing and the default timeout. *)
Lemma attempt_duration (w : world) :
  now w ≤ now (try w).2 ≤ now w + SUPABASE_TIMEOUT.
Proof.
  destruct (RetryFacts.attempt_wrapped op_wins_tie fetchFn w)
    as (wk & wk' & Hs & Hcall & Hf).
  unfold withTimeout_call in Hcall. simpl in Hcall.
  rewrite <- Hf, <- Hs.
  destruct (DeadlineExtras.withTimeout_cases op_wins_tie
              (fetchFn (calls w)) SUPABASE_TIMEOUT wk)
    as [(w1 & Heq & Hnow & _)|(after & o & w1 & _ & Heq & Hnow & Hle)];
    rewrite Heq in Hcall; injection Hcall as _ <-;
    rewrite DeadlineFacts.clamp_default in *;
    unfold SUPABASE_TIMEOUT in *; lia.
Qed.

Lemma pause_now i (w : world) : now w ≤ now (pause i w).
Proof.
  unfold backoff. destruct (i <? maxRetries - 1); [|lia].
  rewrite RetryFacts.sleep_now.
  pose proof (DeadlineFacts.clamp_nonneg (delay * (i + 1))). lia.
Qed.

Lemma pause_calls_after_try i (w : world) :
  calls (pause i (try w).2) = S (calls w).
Proof. by rewrite RetryFacts.backoff_calls, RetryFacts.attempt_calls. Qed.

(** ** How often the operation is invoked *)

Lemma runs_calls i e (w : world) res w' :
  run i e w res w' →
  (calls w ≤ calls w')%nat
  ∧ (calls w' - calls w ≤ Z.to_nat (maxRetries - i))%nat
  ∧ (i < maxRetries → (calls w < calls w')%nat).
Proof.
  induction 1 as [i e w Hout|i e w v Hin Htry|i e w r res w' Hin Htry _ IH].
  - lia.
  - rewrite RetryFacts.attempt_calls. lia.
  - rewrite pause_calls_after_try in IH. lia.
Qed.

(** ** Where the result comes from *)

Lemma runs_result i e (w : world) res w' :
  run i e w res w' →
  i < maxRetries →
  res = awaited op_wins_tie (fetchFn (calls w' - 1)%nat)
  ∧ (∀ k, (calls w ≤ k < calls w' - 1)%nat →
          ∃ r, awaited op_wins_tie (fetchFn k) = Rejected r)
  ∧ (∀ r, res = Rejected r →
          Z.of_nat (calls w' - calls w) = maxRetries - i).
Proof.
  induction 1 as [i e w Hout|i e w v Hin Htry|i e w r res w' Hin Htry Hrest IH];
    intros Hlt.
  - lia.
  - rewrite RetryFacts.attempt_calls.
    replace (S (calls w) - 1)%nat with (calls w) by lia.
    split; [|split].
    + rewrite <- Htry. apply RetryFacts.attempt_outcome_awaited.
    + intros k Hk. lia.
    + discriminate.
  - assert (Hr : awaited op_wins_tie (fetchFn (calls w)) = Rejected r).
    { rewrite <- Htry. symmetry. apply RetryFacts.attempt_outcome_awaited. }
    destruct (Z.lt_ge_cases (i + 1) maxRetries) as [Hmore|Hlast].
    + destruct (IH Hmore) as (Hres & Hfailed & Hused).
      rewrite pause_calls_after_try in Hfailed, Hused.
      pose proof (runs_calls _ _ _ _ _ Hrest) as (Hle & _ & _).
      rewrite pause_calls_after_try in Hle.
      split; [done|]. split.
      * intros k Hk. destruct (decide (k = calls w)) as [->|Hne]; [eauto|].
        apply Hfailed. lia.
      * intros r' Hr'. specialize (Hused r' Hr'). lia.
    + destruct (RetryFacts.runs_exit_inv _ _ _ _ _ _ _ _ _ Hlast Hrest)
        as [-> ->].
      rewrite pause_calls_after_try.
      replace (S (calls w) - 1)%nat with (calls w) by lia.
      split; [done|]. split.
      * intros k Hk. lia.
      * intros _ _. lia.
Qed.

(** ** How long a run takes *)

Lemma runs_clock i e (w : world) res w' :
  run i e w res w' →
  0 ≤ delay → 0 ≤ i →
  now w ≤ now w'
  ∧ (maxRetries ≤ i → now w' = now w)
  ∧ (i < maxRetries →
     2 * (now w' - now w)
     ≤ 2 * SUPABASE_TIMEOUT * (maxRetries - i)
       + delay * ((maxRetries - 1) * maxRetries - i * (i + 1))).
Proof.
  induction 1 as [i e w Hout|i e w v Hin Htry|i e w r res w' Hin Htry Hrest IH];
    intros Hdelay Hi.
  - split; [lia|]. split; [done|lia].
  - pose proof (attempt_duration w) as Hdur.
    split; [lia|]. split; [lia|]. intros _.
    assert (Hsum : 0 ≤ (maxRetries - 1) * maxRetries - i * (i + 1)) by nia.
    pose proof (Z.mul_nonneg_nonneg _ _ Hdelay Hsum).
    unfold SUPABASE_TIMEOUT in *. lia.
  - pose proof (attempt_duration w) as Hdur.
    destruct IH as (Hmono & Hexit & Hbound); [done|lia|].
    destruct (Z.lt_ge_cases i (maxRetries - 1)) as [Hmore|Hlast].
    + rewrite RetryFacts.backoff_between in Hmono, Hbound by done.
      rewrite RetryFacts.sleep_now in Hmono, Hbound.
      assert (Hwait : 0 ≤ clamp (delay * (i + 1)) ≤ delay * (i + 1)).
      { split; [apply DeadlineFacts.clamp_nonneg|].
        apply DeadlineFacts.clamp_le. nia. }
      specialize (Hbound ltac:(lia)).
      split; [lia|]. split; [lia|]. intros _.
      unfold SUPABASE_TIMEOUT in *. nia.
    + rewrite RetryFacts.backoff_last in Hexit by done.
      specialize (Hexit ltac:(lia)).
      split; [lia|]. split; [lia|]. intros _.
      assert (Hi' : i = maxRetries - 1) by lia.
      replace ((maxRetries - 1) * maxRetries - i * (i + 1)) with 0
        by (rewrite Hi'; ring).
      unfold SUPABASE_TIMEOUT in *. lia.
Qed.

(** ** What the log holds *)

Lemma runs_counts i e (w : world) res w' :
  run i e w res w' →
  ∀ L, log w' = log w ++ L →
  attempts_in L = (calls w' - calls w)%nat
  ∧ waits_in L = (attempts_in L - 1)%nat.
Proof.
  induction 1 as [i e w Hout|i e w v Hin Htry|i e w r res w' Hin Htry Hrest IH];
    intros L HL.
  - rewrite <- (app_nil_r (log w)) in HL at 1.
    apply app_inv_head in HL. subst L. simpl. lia.
  - rewrite RetryFacts.attempt_log in HL. apply app_inv_head in HL. subst L.
    rewrite RetryFacts.attempt_calls. simpl. lia.
  - destruct (RetryFacts.runs_log_extends _ _ _ _ _ _ _ _ _ Hrest) as [L2 HL2].
    pose proof HL2 as HL'.
    rewrite (RetryFacts.failure_log _ _ _ _ _ _ r) in HL' by done.
    rewrite HL, <- app_assoc in HL'. apply app_inv_head in HL'. subst L.
    destruct (IH L2 HL2) as [Hatt Hwait].
    pose proof (runs_calls _ _ _ _ _ Hrest) as (Hle & _ & Hstrict).
    rewrite pause_calls_after_try in Hatt, Hle, Hstrict.
    destruct (Z.ltb_spec i (maxRetries - 1)) as [Hmore|Hlast]; simpl.
    + specialize (Hstrict ltac:(lia)). lia.
    + assert (Hout : maxRetries ≤ i + 1) by lia.
      destruct (RetryFacts.runs_exit_inv _ _ _ _ _ _ _ _ _ Hout Hrest)
        as [_ Hw'].
      rewrite Hw', pause_calls_after_try in Hatt |- *. lia.
Qed.

(** Every wait of the log sits between two attempts. *)
Lemma runs_wait_between i e (w : world) res w' :
  run i e w res w' →
  ∀ L, log w' = log w ++ L →
  ∀ n ms s f, L !! n = Some (Sleep ms s f) →
    ∃ m k s0 r k' f' o,
      n = S m
      ∧ L !! m = Some (Attempt k s0 s (Rejected r))
      ∧ L !! S n = Some (Attempt k' f f' o).
Proof.
  induction 1 as [i e w Hout|i e w v Hin Htry|i e w r res w' Hin Htry Hrest IH];
    intros L HL n ms s f Hn.
  - rewrite <- (app_nil_r (log w)) in HL at 1.
    apply app_inv_head in HL. subst L. done.
  - rewrite RetryFacts.attempt_log in HL. apply app_inv_head in HL. subst L.
    by destruct n as [|[|n]].
  - destruct (RetryFacts.runs_log_extends _ _ _ _ _ _ _ _ _ Hrest) as [L2 HL2].
    pose proof HL2 as HL'.
    rewrite (RetryFacts.failure_log _ _ _ _ _ _ r) in HL' by done.
    rewrite HL, <- app_assoc in HL'. apply app_inv_head in HL'. subst L.
    destruct (Z.ltb_spec i (maxRetries - 1)) as [Hmore|Hlast].
    + destruct (RetryFacts.runs_head _ _ _ _ _ _ _ _ _ Hrest)
        as (f' & o & L' & Hhead); [lia|].
      rewrite HL2 in Hhead. apply app_inv_head in Hhead.
      rewrite RetryFacts.backoff_between in Hhead by done.
      rewrite RetryFacts.sleep_now in Hhead.
      destruct n as [|[|n]]; simpl in Hn.
      * done.
      * injection Hn as <- <- <-.
        exists 0%nat. do 6 eexists. split; [done|]. split; [done|].
        simpl. rewrite Hhead. done.
      * destruct (IH L2 HL2 n ms s f Hn)
          as (m & k & s0 & r0 & k' & f'' & o' & -> & Hm & Hnext).
        exists (S (S m)). do 6 eexists. split; [done|]. split; [exact Hm|].
        exact Hnext.
    + assert (Hout : maxRetries ≤ i + 1) by lia.
      destruct (RetryFacts.runs_exit_inv _ _ _ _ _ _ _ _ _ Hout Hrest)
        as [_ Hw'].
      rewrite <- Hw' in HL2.
      rewrite <- (app_nil_r (log _)) in HL2 at 1.
      apply app_inv_head in HL2. subst L2.
      by destruct n as [|[|n]].
Qed.

Lemma runs_sleeps i e (w : world) res w' :
  run i e w res w' →
  ∀ L, log w' = log w ++ L →
  ∀ ms s f, Sleep ms s f ∈ L →
    ∃ a, i < a < maxRetries ∧ ms = delay * a ∧ f = s + clamp ms.
Proof.
  induction 1 as [i e w Hout|i e w v Hin Htry|i e w r res w' Hin Htry Hrest IH];
    intros L HL ms s f Hel.
  - rewrite <- (app_nil_r (log w)) in HL at 1.
    apply app_inv_head in HL. subst L. by apply elem_of_nil in Hel.
  - rewrite RetryFacts.attempt_log in HL. apply app_inv_head in HL. subst L.
    by apply list_elem_of_singleton in Hel.
  - destruct (RetryFacts.runs_log_extends _ _ _ _ _ _ _ _ _ Hrest) as [L2 HL2].
    pose proof HL2 as HL'.
    rewrite (RetryFacts.failure_log _ _ _ _ _ _ r) in HL' by done.
    rewrite HL, <- app_assoc in HL'. apply app_inv_head in HL'. subst L.
    apply elem_of_cons in Hel as [Hel|Hel]; [done|].
    apply elem_of_app in Hel as [Hel|Hel].
    + destruct (Z.ltb_spec i (maxRetries - 1)) as [Hmore|Hlast].
      * apply list_elem_of_singleton in Hel. injection Hel as -> -> ->.
        exists (i + 1). split; [lia|done].
      * by apply elem_of_nil in Hel.
    + destruct (IH L2 HL2 ms s f Hel) as (a & Ha & Hms & Hf).
      exists a. split; [lia|done].
Qed.

(** X3.  Whatever the operation does, [fetchWithRetry] comes to an end
    having invoked it at most [maxRetries] times (not at all for
    [maxRetries ≤ 0]), and at least once when [maxRetries ≥ 1]. *)
Theorem fetchWithRetry_invocation_bounds (w : world) :
  ∃ res w',
    fetchWithRetry op_wins_tie fetchFn maxRetries delay w = Some (res, w')
    ∧ (calls w ≤ calls w')%nat
    ∧ Z.of_nat (calls w' - calls w) ≤ Z.max 0 maxRetries
    ∧ (1 ≤ maxRetries → (calls w < calls w')%nat).
Proof.
  destruct (RetryFacts.fetchWithRetry_total op_wins_tie fetchFn maxRetries
              delay w) as [[res w'] Hrun].
  exists res, w'. split; [done|].
  apply RetryFacts.loop_runs in Hrun.
  destruct (runs_calls _ _ _ _ _ Hrun) as (Hle & Hmost & Hleast).
  split; [done|]. split; [lia|]. intros Hpos. apply Hleast. lia.
Qed.

(** X4.  For any operation and [maxRetries ≥ 1], the result of
    [fetchWithRetry] is the outcome of the last invocation it made; every
    invocation before that one failed; and a rejection is only reported
    after all [maxRetries] attempts were used. *)
Theorem fetchWithRetry_result_of_last_attempt (w : world) res w' :
  fetchWithRetry op_wins_tie fetchFn maxRetries delay w = Some (res, w') →
  1 ≤ maxRetries →
  res = awaited op_wins_tie (fetchFn (calls w' - 1)%nat)
  ∧ (∀ k, (calls w ≤ k < calls w' - 1)%nat →
          ∃ r, awaited op_wins_tie (fetchFn k) = Rejected r)
  ∧ (∀ r, res = Rejected r → Z.of_nat (calls w' - calls w) = maxRetries).
Proof.
  intros Hrun Hpos. apply RetryFacts.loop_runs in Hrun.
  destruct (runs_result _ _ _ _ _ Hrun) as (Hres & Hfailed & Hused); [lia|].
  split; [done|]. split; [done|].
  intros r Hr. rewrite (Hused r Hr). lia.
Qed.

(** X5.  With a non-negative delay, [fetchWithRetry] settles within
    [maxRetries] timeouts plus the waits [delay * 1 + ... + delay *
    (maxRetries - 1)] of the moment it was called (33 s with the
    defaults), and never before that moment. *)
Theorem fetchWithRetry_latency (w : world) res w' :
  fetchWithRetry op_wins_tie fetchFn maxRetries delay w = Some (res, w') →
  0 ≤ delay →
  0 ≤ maxRetries →
  now w ≤ now w'
  ∧ 2 * (now w' - now w)
    ≤ 2 * SUPABASE_TIMEOUT * maxRetries
      + delay * ((maxRetries - 1) * maxRetries).
Proof.
  intros Hrun Hdelay Hmax. apply RetryFacts.loop_runs in Hrun.
  destruct (runs_clock _ _ _ _ _ Hrun) as (Hmono & Hexit & Hbound);
    [done|lia|].
  split; [done|].
  destruct (Z.lt_ge_cases 0 maxRetries) as [Hpos|Hzero].
  - specialize (Hbound Hpos). lia.
  - rewrite Hexit by done.
    assert (maxRetries = 0) as -> by lia. lia.
Qed.

(** X6.  The log of a run holds one attempt per invocation of the
    operation, and one wait fewer than attempts (none when there was no
    attempt): waits happen between attempts only.  Each wait comes right
    after a failed attempt, starting when that attempt failed, and right
    before the next attempt, which starts when the wait is over. *)
Theorem fetchWithRetry_log_counts (w : world) res w' L :
  fetchWithRetry op_wins_tie fetchFn maxRetries delay w = Some (res, w') →
  log w' = log w ++ L →
  attempts_in L = (calls w' - calls w)%nat
  ∧ waits_in L = (attempts_in L - 1)%nat
  ∧ ∀ n ms s f, L !! n = Some (Sleep ms s f) →
      ∃ m k s0 r k' f' o,
        n = S m
        ∧ L !! m = Some (Attempt k s0 s (Rejected r))
        ∧ L !! S n = Some (Attempt k' f f' o).
Proof.
  intros Hrun HL. apply RetryFacts.loop_runs in Hrun.
  destruct (runs_counts _ _ _ _ _ Hrun L HL) as [Hatt Hwait].
  split; [done|]. split; [done|].
  by apply (runs_wait_between _ _ _ _ _ Hrun).
Qed.

(** X7.  Every wait of a run is requested as [delay * a] for an attempt
    number [a] with [1 ≤ a < maxRetries]; it never ends before it started,
    and when the requested wait is a delay a timer can hold (from 1 to
    [TIMEOUT_MAX] milliseconds) it lasts exactly that long. *)
Theorem fetchWithRetry_waits (w : world) res w' L ms s f :
  fetchWithRetry op_wins_tie fetchFn maxRetries delay w = Some (res, w') →
  log w' = log w ++ L →
  Sleep ms s f ∈ L →
  (∃ a, 1 ≤ a < maxRetries ∧ ms = delay * a)
  ∧ s ≤ f
  ∧ (1 ≤ ms ≤ TIMEOUT_MAX → f = s + ms).
Proof.
  intros Hrun HL Hel. apply RetryFacts.loop_runs in Hrun.
  destruct (runs_sleeps _ _ _ _ _ Hrun L HL ms s f Hel) as (a & Ha & Hms & Hf).
  split; [|split].
  - exists a. split; [lia|done].
  - pose proof (DeadlineFacts.clamp_nonneg ms). lia.
  - intros Hrange. rewrite Hf, DeadlineFacts.clamp_in_range by lia. done.
Qed.

End Retry.

Import Samples.

Lemma fetchWithRetry_result_of_last_attempt_witness :
  flaky_result = awaited true (flaky 2%nat)
  ∧ ∀ k, (0 ≤ k < 2)%nat → ∃ r, awaited true (flaky k) = Rejected r.
Proof.
  destruct (fetchWithRetry_result_of_last_attempt true flaky 3 1000 world0
              flaky_result flaky_end) as (Hres & Hfailed & _).
  - vm_compute. reflexivity.
  - lia.
  - split; [exact Hres|exact Hfailed].
Defined.

Lemma fetchWithRetry_latency_witness :
  0 ≤ now flaky_end
  ∧ 2 * (now flaky_end - 0) ≤ 2 * SUPABASE_TIMEOUT * 3 + 1000 * ((3 - 1) * 3).
Proof.
  apply (fetchWithRetry_latency true flaky 3 1000 world0 flaky_result
           flaky_end).
  - vm_compute. reflexivity.
  - lia.
  - lia.
Defined.

Lemma fetchWithRetry_log_counts_witness :
  attempts_in (log flaky_end) = 3%nat ∧ waits_in (log flaky_end) = 2%nat.
Proof.
  destruct (fetchWithRetry_log_counts true flaky 3 1000 world0 flaky_result
              flaky_end (log flaky_end)) as (Hatt & Hwait & _).
  - vm_compute. reflexivity.
  - vm_compute. reflexivity.
  - split; [exact Hatt|]. rewrite Hwait, Hatt. reflexivity.
Defined.

Lemma fetchWithRetry_waits_witness :
  ∃ a, 1 ≤ a < 3 ∧ 2000 = 1000 * a.
Proof.
  destruct (fetchWithRetry_waits true flaky 3 1000 world0 flaky_result
              flaky_end (log flaky_end) 2000 11020 13020) as [Hwait _].
  - vm_compute. reflexivity.
  - vm_compute. reflexivity.
  - vm_compute. set_solver.
  - exact Hwait.
Defined.

End RetryExtras.

(** * Further properties of novel creation *)

Module NovelExtras.
Import Novels NovelSupport ErrorReport.

Local Open Scope string_scope.

(** ** The extension of a file name *)

Lemma append_cons c (s1 s2 : string) :
  String c s1 ++ s2 = String c (s1 ++ s2).
Proof. reflexivity. Qed.

Lemma append_empty_r (s : string) : s ++ "" = s.
Proof. induction s as [|c s IH]; [done|]. by rewrite append_cons, IH. Qed.

Lemma append_assoc (s1 s2 s3 : string) : (s1 ++ s2) ++ s3 = s1 ++ (s2 ++ s3).
Proof. induction s1 as [|c s1 IH]; [done|]. by rewrite !append_cons, IH. Qed.

Lemma dot_free_append (s1 s2 : string) :
  dot_free (s1 ++ s2) = dot_free s1 && dot_free s2.
Proof.
  induction s1 as [|c s1 IH]; [done|].
  rewrite append_cons. simpl. rewrite IH. by destruct (Ascii.eqb c ".").
Qed.

(** Reading a name in two parts. *)
Lemma split_pop_append (s1 s2 acc : string) :
  split_pop (s1 ++ s2) acc = split_pop s2 (split_pop s1 acc).
Proof.
  revert acc. induction s1 as [|c s1 IH]; intros acc; [done|].
  rewrite append_cons. simpl. by destruct (Ascii.eqb c ".").
Qed.

Lemma split_pop_dot_free (s acc : string) :
  dot_free s = true → split_pop s acc = acc ++ s.
Proof.
  revert acc. induction s as [|c s IH]; intros acc Hfree; simpl in *.
  - by rewrite append_empty_r.
  - destruct (Ascii.eqb c "."); [done|].
    rewrite IH by done. by rewrite append_assoc.
Qed.

Lemma split_pop_keeps_dot_free (s acc : string) :
  dot_free acc = true → dot_free (split_pop s acc) = true.
Proof.
  revert acc. induction s as [|c s IH]; intros acc Hacc; simpl; [done|].
  destruct (Ascii.eqb c ".") eqn:Hc; [by apply IH|].
  apply IH. rewrite dot_free_append, Hacc. simpl. by rewrite Hc.
Qed.

Lemma split_pop_suffix (s acc : string) :
  ∃ pre, acc ++ s = pre ++ split_pop s acc.
Proof.
  revert acc. induction s as [|c s IH]; intros acc; simpl.
  - exists "". by rewrite append_empty_r.
  - destruct (Ascii.eqb_spec c ".") as [->|Hc].
    + destruct (IH "") as [pre Hpre]. exists (acc ++ "." ++ pre).
      rewrite !append_assoc. f_equal. rewrite append_cons. f_equal.
      exact Hpre.
    + destruct (IH (acc ++ String c "")) as [pre Hpre]. exists pre.
      rewrite <- Hpre. by rewrite append_assoc.
Qed.

(** X8.  [name.split('.').pop()] of a name that ends in a dot followed by
    a dot-free extension is that extension, whatever comes before the
    dot, other dots included. *)
Theorem split_pop_extension (pre ext : string) :
  dot_free ext = true →
  split_pop (pre ++ "." ++ ext) "" = ext.
Proof.
  intros Hfree. rewrite split_pop_append, append_cons. simpl.
  by rewrite split_pop_dot_free.
Qed.

(** X9.  A name without any dot has no extension to take: the whole name
    comes back, so that a file called [cover] is stored as
    [<uuid>.cover]. *)
Theorem split_pop_without_dot (file : File) (B : Backend) :
  dot_free (name file) = true →
  split_pop (name file) "" = name file
  ∧ stored_name B file = uuidv4 B ++ "." ++ name file.
Proof.
  intros Hfree. unfold stored_name.
  by rewrite split_pop_dot_free.
Qed.

(** X10.  For every name, the extension taken has no dot in it and is the
    end of the name. *)
Theorem split_pop_dot_free_suffix (s : string) :
  dot_free (split_pop s "") = true
  ∧ ∃ pre, s = pre ++ split_pop s "".
Proof.
  split; [by apply split_pop_keeps_dot_free|].
  destruct (split_pop_suffix s "") as [pre Hpre]. by exists pre.
Qed.

(** ** createNovel and its collaborators *)

Section WithBackend.

Variable B : Backend.

Lemma uploadNovelCover_with_insert ins file :
  uploadNovelCover (with_insert B ins) file = uploadNovelCover B file.
Proof. reflexivity. Qed.

(** When the [try] block reaches its [return], the upload (if any) and
    the insert both answered without error. *)
Lemma try_block_resolved formData coverImage userId :
  (try_block B formData coverImage userId).1 = Resolved () →
  ∃ cover data err,
    insert B (row_of B formData cover userId) = Resolved (data, err)
    ∧ truthy err = false
    ∧ match coverImage with
      | None => cover = JNull
      | Some file =>
          cover = JStr (getPublicUrl B (stored_name B file))
          ∧ ∃ e, upload B (stored_name B file) file = Resolved e
                 ∧ truthy e = false
      end.
Proof.
  unfold try_block. destruct coverImage as [file|].
  - unfold uploadNovelCover. fold (stored_name B file).
    destruct (upload B (stored_name B file) file) as [e|v] eqn:Hup;
      [|done].
    destruct (truthy e) eqn:He; [done|]. simpl.
    fold (row_of B formData (JStr (getPublicUrl B (stored_name B file)))
            userId).
    destruct (insert B _) as [[data err]|v] eqn:Hins; [|done].
    destruct (truthy err) eqn:Herr; [done|]. intros _.
    eexists _, data, err. split; [exact Hins|]. split; [done|].
    split; [done|]. by exists e.
  - fold (row_of B formData JNull userId).
    destruct (insert B _) as [[data err]|v] eqn:Hins; [|done].
    destruct (truthy err) eqn:Herr; [done|]. intros _.
    by eexists _, data, err.
Qed.

(** X11.  [createNovel] reports success only if the insert was really
    made and answered without error, for the row built from the form
    data, the caller's id, zero views and the clock, with [null] as cover
    when no image was chosen and otherwise the public URL of the image,
    whose upload answered without error. *)
Theorem createNovel_success_means_inserted formData coverImage userId r :
  (createNovel B formData coverImage userId).1 = Returns r →
  success r = true →
  ∃ cover data err,
    insert B (row_of B formData cover userId) = Resolved (data, err)
    ∧ truthy err = false
    ∧ match coverImage with
      | None => cover = JNull
      | Some file =>
          cover = JStr (getPublicUrl B (stored_name B file))
          ∧ ∃ e, upload B (stored_name B file) file = Resolved e
                 ∧ truthy e = false
      end.
Proof.
  intros Hret Hsuccess. apply try_block_resolved.
  unfold createNovel in Hret.
  destruct (try_block B formData coverImage userId) as [[[]|v] fx];
    [done|].
  unfold catch_block in Hret. destruct (property_message v); simpl in Hret.
  - injection Hret as <-. done.
  - done.
Qed.

(** X12.  When the upload of the cover fails, [createNovel] does not go
    on to the insert: its whole result is the same whatever the insert
    would have done, and it is what the [catch] clause makes of the
    failure of the upload. *)
Theorem createNovel_failed_upload_skips_insert formData file userId v :
  (uploadNovelCover B file).1 = Raised v →
  (∀ ins, createNovel (with_insert B ins) formData (Some file) userId
          = createNovel B formData (Some file) userId)
  ∧ (createNovel B formData (Some file) userId).1 = (catch_block v).1.
Proof.
  intros Hup. split.
  - intros ins. unfold createNovel, try_block.
    rewrite uploadNovelCover_with_insert.
    destruct (uploadNovelCover B file) as [[url|v'] fx]; [done|].
    reflexivity.
  - unfold createNovel, try_block.
    destruct (uploadNovelCover B file) as [[url|v'] fx]; [done|].
    simpl in Hup. injection Hup as ->. by destruct (catch_block v).
Qed.

(** X13.  The only row [createNovel] ever submits is the one built from
    its own arguments with [views = 0]: an insert that behaves
    differently on every other row gives the same result. *)
Theorem createNovel_only_submits_its_row formData coverImage userId ins :
  (∀ cover, ins (row_of B formData cover userId)
            = insert B (row_of B formData cover userId)) →
  createNovel (with_insert B ins) formData coverImage userId
  = createNovel B formData coverImage userId.
Proof.
  intros Hrow. unfold createNovel.
  assert (Htry : try_block (with_insert B ins) formData coverImage userId
                 = try_block B formData coverImage userId).
  { unfold try_block. destruct coverImage as [file|].
    - rewrite uploadNovelCover_with_insert.
      destruct (uploadNovelCover B file) as [[url|v'] fx]; [|done].
      simpl. fold (row_of B formData (JStr url) userId). by rewrite Hrow.
    - simpl. fold (row_of B formData JNull userId). by rewrite Hrow. }
  by rewrite Htry.
Qed.

Lemma uploadNovelCover_toasts file :
  toasts (uploadNovelCover B file).2 = [].
Proof.
  unfold uploadNovelCover. destruct (upload B _ file) as [e|v]; [|done].
  by destruct (truthy e).
Qed.

Lemma toasts_app fx fx' : toasts (fx ++ fx')%list = (toasts fx ++ toasts fx')%list.
Proof. apply List.filter_app. Qed.

Lemma try_block_toasts formData coverImage userId :
  toasts (try_block B formData coverImage userId).2
  = match (try_block B formData coverImage userId).1 with
    | Resolved _ => [ToastSuccess "Novel created successfully!"]
    | Raised _ => []
    end.
Proof.
  unfold try_block. destruct coverImage as [file|].
  - pose proof (uploadNovelCover_toasts file) as Hup.
    destruct (uploadNovelCover B file) as [[url|v] fx]; simpl in *; [|done].
    destruct (insert B _) as [[data err]|v]; [|done].
    destruct (truthy err); simpl; [done|].
    by rewrite toasts_app, Hup.
  - destruct (insert B _) as [[data err]|v]; [|done].
    by destruct (truthy err).
Qed.

(** X14.  A call of [createNovel] that returns shows exactly one toast:
    the success toast when it returns [success = true], and otherwise an
    error toast whose text is never empty (the failure's message, or
    ['Failed to create novel'] when that is missing or empty).  A call
    that rejects shows none. *)
Theorem createNovel_toasts formData coverImage userId :
  let fx := (createNovel B formData coverImage userId).2 in
  match (createNovel B formData coverImage userId).1 with
  | Returns r =>
      if success r
      then toasts fx = [ToastSuccess "Novel created successfully!"]
      else ∃ text,
             toasts fx = [ToastError text] ∧ truthy text = true
             ∧ text = (if truthy (error r) then error r
                       else JStr "Failed to create novel")
  | RejectsTypeError => toasts fx = []
  end.
Proof.
  unfold createNovel.
  pose proof (try_block_toasts formData coverImage userId) as Htoasts.
  destruct (try_block B formData coverImage userId) as [[[]|v] fx];
    simpl in *; [done|].
  unfold catch_block. destruct (property_message v) as [message|]; simpl.
  - rewrite toasts_app, Htoasts. simpl. eexists. split; [done|].
    unfold js_or. split; [|done]. by destruct (truthy message) eqn:Hm.
  - rewrite toasts_app, Htoasts. done.
Qed.

End WithBackend.

(** X15.  [handleError] accepts every value, [null] and [undefined]
    included, and always shows a toast with a non-empty text: the value's
    own message when that is truthy, ['An unexpected error occurred']
    otherwise. *)
Theorem handleError_toast (error : jsval) :
  ∃ text,
    handleError error = [ConsoleError "Error:" error; ToastError text]
    ∧ truthy text = true
    ∧ (nullish error = true → text = JStr "An unexpected error occurred")
    ∧ (∀ message, property_message error = Some message →
         text = if truthy message then message
                else JStr "An unexpected error occurred").
Proof.
  unfold handleError, optional_message. eexists. split; [done|].
  destruct error as [| |b|s|message]; simpl; unfold js_or; simpl;
    try (split; [done|]; split; [done|]; by intros ? [= <-]).
  destruct (truthy message) eqn:Hm.
  - split; [done|]. split; [done|]. intros ? [= <-]. by rewrite Hm.
  - split; [done|]. split; [done|]. intros ? [= <-]. by rewrite Hm.
Qed.

Import Samples.

Lemma split_pop_extension_witness :
  split_pop "cover.final.png" "" = "png".
Proof. apply (split_pop_extension "cover.final" "png"). reflexivity. Defined.

Lemma split_pop_without_dot_witness :
  split_pop "README" "" = "README".
Proof.
  apply (split_pop_without_dot {| name := "README"; size := 10 |} healthy).
  reflexivity.
Defined.

Lemma createNovel_success_means_inserted_witness :
  ∃ cover data err,
    insert healthy (row_of healthy form1 cover "user-1") = Resolved (data, err)
    ∧ truthy err = false
    ∧ cover = JStr (getPublicUrl healthy (stored_name healthy cover1)).
Proof.
  destruct (createNovel_success_means_inserted healthy form1 (Some cover1)
              "user-1" {| success := true; error := JUndefined |})
    as (cover & data & err & Hins & Herr & Hcover & _).
  - reflexivity.
  - reflexivity.
  - exists cover, data, err. split; [exact Hins|]. split; [exact Herr|].
    exact Hcover.
Defined.

Lemma createNovel_failed_upload_skips_insert_witness :
  (createNovel storage_down form1 (Some cover1) "user-1").1
  = (catch_block JUndefined).1.
Proof.
  apply (createNovel_failed_upload_skips_insert storage_down form1 cover1
           "user-1" JUndefined).
  reflexivity.
Defined.

Lemma createNovel_only_submits_its_row_witness :
  createNovel
    (with_insert healthy
       (λ row, if (views row =? 0)%Z then insert healthy row
               else Raised JNull))
    form1 (Some cover1) "user-1"
  = createNovel healthy form1 (Some cover1) "user-1".
Proof.
  apply (createNovel_only_submits_its_row healthy form1 (Some cover1)
           "user-1").
  intros cover. reflexivity.
Defined.

End NovelExtras.

(** * Properties of the creation form *)

Module ModalFacts.
Import Novels Modal.

Local Open Scope string_scope.

(** ** The genre buttons *)

Lemma filter_other_id (g : string) (sel : list string) :
  g ∉ sel → filter (λ h, h ≠ g) sel = sel.
Proof.
  induction sel as [|h sel IH]; intros Hnot; [done|].
  apply not_elem_of_cons in Hnot as [Hne Hnot].
  rewrite filter_cons_True by done. by rewrite IH.
Qed.

(** Who is selected after a click. *)
Lemma elem_of_toggle (g h : string) (sel : list string) :
  h ∈ toggle g sel
  ↔ (h = g ∧ (g ∉ sel) ∧ (length sel < 3)%nat) ∨ (h ≠ g ∧ h ∈ sel).
Proof.
  unfold toggle. destruct (decide (g ∈ sel)) as [Hin|Hnot].
  - rewrite list_elem_of_filter. split.
    + intros [Hne Hh]. by right.
    + intros [(_ & Hnot & _)|Hh]; done.
  - destruct (decide (length sel < 3)%nat) as [Hroom|Hfull].
    + rewrite elem_of_app, list_elem_of_singleton. split.
      * intros [Hh| ->]; [right|by left].
        split; [|done]. by intros ->.
      * intros [(-> & _)|(_ & Hh)]; [by right|by left].
    + split.
      * intros Hh. right. split; [|done]. by intros ->.
      * intros [(_ & _ & Hlt)|(_ & Hh)]; done.
Qed.

(** X16.  After a click on [g], the genre [g] is selected exactly when it
    was not selected before and fewer than three genres were; every other
    genre stays as it was. *)
Theorem toggle_membership (g h : string) (sel : list string) :
  h ∈ toggle g sel
  ↔ (h = g ∧ (g ∉ sel) ∧ (length sel < 3)%nat) ∨ (h ≠ g ∧ h ∈ sel).
Proof. apply elem_of_toggle. Qed.

Lemma toggle_keeps (g : string) (sel : list string) :
  (length sel ≤ 3)%nat → NoDup sel →
  (length (toggle g sel) ≤ 3)%nat ∧ NoDup (toggle g sel).
Proof.
  intros Hlen Hnodup. unfold toggle.
  destruct (decide (g ∈ sel)) as [Hin|Hnot].
  - split; [|by apply NoDup_filter].
    pose proof (length_filter (λ h, h ≠ g) sel). lia.
  - destruct (decide (length sel < 3)%nat) as [Hroom|Hfull]; [|done].
    split.
    + rewrite length_app. simpl. lia.
    + apply NoDup_app. split; [done|]. split; [|apply NoDup_singleton].
      intros h Hh ->%list_elem_of_singleton. done.
Qed.

Lemma toggleGenre_clicks (clicks : list string) : ∀ fd,
  genre (foldl (λ fd g, toggleGenre g fd) fd clicks)
  = foldl (λ sel g, toggle g sel) (genre fd) clicks.
Proof. induction clicks as [|g clicks IH]; intros fd; [done|]. apply IH. Qed.

Lemma toggle_clicks_keep (clicks : list string) : ∀ sel,
  (length sel ≤ 3)%nat → NoDup sel →
  let sel' := foldl (λ sel g, toggle g sel) sel clicks in
  (length sel' ≤ 3)%nat ∧ NoDup sel'
  ∧ ∀ g, g ∈ sel' → g ∈ sel ∨ g ∈ clicks.
Proof.
  induction clicks as [|c clicks IH]; intros sel Hlen Hnodup; simpl.
  - split; [done|]. split; [done|]. intros g Hg. by left.
  - destruct (toggle_keeps c sel Hlen Hnodup) as [Hlen' Hnodup'].
    destruct (IH (toggle c sel) Hlen' Hnodup') as (Hl & Hn & Hsub).
    split; [done|]. split; [done|].
    intros g Hg. destruct (Hsub g Hg) as [Hg'|Hg'].
    + apply elem_of_toggle in Hg' as [(-> & _)|(_ & Hg')].
      * right. apply elem_of_cons. by left.
      * by left.
    + right. apply elem_of_cons. by right.
Qed.

(** X17.  Starting from the empty form, whatever sequence of genre
    buttons is clicked, at most three genres are selected, none of them
    twice, and only genres that were clicked. *)
Theorem genre_selection_invariant (clicks : list string) :
  let fd := foldl (λ fd g, toggleGenre g fd) emptyForm clicks in
  (length (genre fd) ≤ 3)%nat
  ∧ NoDup (genre fd)
  ∧ ∀ g, g ∈ genre fd → g ∈ clicks.
Proof.
  intros fd. subst fd. rewrite toggleGenre_clicks. simpl.
  destruct (toggle_clicks_keep clicks []) as (Hl & Hn & Hsub).
  - simpl. lia.
  - apply NoDup_nil_2.
  - split; [done|]. split; [done|].
    intros g Hg. destruct (Hsub g Hg) as [Hnil|Hg']; [|done].
    by apply elem_of_nil in Hnil.
Qed.

(** X18.  Selecting a genre that was not selected, while there is room,
    and clicking it again gives back the selection one started from. *)
Theorem toggle_twice (g : string) (sel : list string) :
  g ∉ sel → (length sel < 3)%nat →
  toggle g (toggle g sel) = sel.
Proof.
  intros Hnot Hroom. unfold toggle at 2.
  rewrite decide_False by done. rewrite decide_True by done.
  unfold toggle. rewrite decide_True by (apply elem_of_app; right; by left).
  rewrite filter_app, filter_other_id by done.
  rewrite filter_cons_False by (intros Hne; by apply Hne).
  by rewrite app_nil_r.
Qed.

(** ** Validation and submission *)

Section Component.

Variable trim : string → string.
Variable B : Backend.
Variable type_error_text : string.

Local Abbreviation validate := (validateForm trim).
Local Abbreviation submit := (handleSubmit trim B type_error_text).

Lemma blank_spec (s : string) : blank trim s = true ↔ trim s = "".
Proof.
  unfold blank. simpl. rewrite negb_involutive. apply String.eqb_eq.
Qed.

Lemma blank_false (s : string) : blank trim s = false ↔ trim s ≠ "".
Proof.
  rewrite <- blank_spec. by destruct (blank trim s).
Qed.

(** The answers of [validateForm]: [null], or a non-empty message. *)
Lemma validate_answers (fd : FormData) :
  validate fd = JNull ∨ truthy (validate fd) = true.
Proof.
  unfold validateForm.
  destruct (blank trim (title fd)); [by right|].
  destruct (blank trim (author fd)); [by right|].
  destruct (length (genre fd) =? 0)%nat; [by right|].
  destruct (blank trim (story fd)); [by right|by left].
Qed.

Lemma validate_truthy (fd : FormData) :
  truthy (validate fd) = false ↔ validate fd = JNull.
Proof.
  split; [|by intros ->].
  intros Hf. destruct (validate_answers fd) as [|Ht]; [done|].
  by rewrite Ht in Hf.
Qed.

(** X19.  [validateForm] answers [null] exactly when the trimmed title,
    the trimmed author and the trimmed synopsis are not empty and at
    least one genre is selected; every other answer is a non-empty
    message. *)
Theorem validateForm_passes_iff (fd : FormData) :
  (validate fd = JNull
   ↔ trim (title fd) ≠ "" ∧ trim (author fd) ≠ ""
     ∧ genre fd ≠ [] ∧ trim (story fd) ≠ "")
  ∧ (validate fd ≠ JNull → truthy (validate fd) = true).
Proof.
  unfold validateForm.
  destruct (blank trim (title fd)) eqn:Ht.
  { apply blank_spec in Ht. split; [|done]. split; [done|]. tauto. }
  destruct (blank trim (author fd)) eqn:Ha.
  { apply blank_spec in Ha. split; [|done]. split; [done|]. tauto. }
  destruct (genre fd) as [|g gs] eqn:Hg; simpl.
  { split; [|done]. split; [done|]. tauto. }
  destruct (blank trim (story fd)) eqn:Hs.
  { apply blank_spec in Hs. split; [|done]. split; [done|]. tauto. }
  apply blank_false in Ht, Ha, Hs. split; [|done]. split; [|done].
  intros _. done.
Qed.


Lemma after_create_keeps (out : outcome) (st : State) :
  let st' := (after_create type_error_text out st).1 in
  formData st' = formData st ∧ coverImage st' = coverImage st
  ∧ uploading st' = uploading st.
Proof.
  destruct out as [r|]; simpl; [|done]. by destruct (success r).
Qed.

(** The two ways out of the [try] / [catch]: success with both callbacks
    and the state untouched, or no callback and a non-empty error. *)
Lemma after_create_cases (out : outcome) (st : State) :
  let res := after_create type_error_text out st in
  ((∃ r, out = Returns r ∧ success r = true)
   ∧ res = (st, [OnCreated; OnClose]))
  ∨ (¬ (∃ r, out = Returns r ∧ success r = true)
     ∧ res.2 = [] ∧ truthy (error res.1) = true).
Proof.
  destruct out as [r|]; simpl.
  - destruct (success r) eqn:Hs.
    + left. split; [by exists r|done].
    + right. split; [|split; [done|]].
      * intros (r' & [= <-] & Hs'). by rewrite Hs in Hs'.
      * simpl. unfold js_or. by destruct (truthy (Novels.error r)) eqn:He.
  - right. split; [|split; [done|]].
    + by intros (r' & Hr' & _).
    + simpl. unfold js_or.
      by destruct (truthy (JStr type_error_text)) eqn:He.
Qed.

(** X20.  [handleSubmit] calls [createNovel] exactly when a user profile
    is present and the form passes [validateForm], and then with the
    form data, the cover and the user's id as they are in the state.
    Otherwise nothing reaches the platform, no callback is made, and the
    [uploading] flag is left as it was. *)
Theorem handleSubmit_reaches_backend (up : option UserProfile) (st : State) :
  let r := submit up st in
  (is_Some (created r) ↔ is_Some up ∧ validate (formData st) = JNull)
  ∧ (∀ profile out,
       up = Some profile → created r = Some out →
       (out, effects r)
       = createNovel B (formData st) (coverImage st) (user_id profile))
  ∧ (created r = None →
       effects r = [] ∧ events r = [PreventDefault]
       ∧ uploading (state r) = uploading st).
Proof.
  unfold handleSubmit. destruct up as [profile|]; simpl.
  - destruct (truthy (validate (formData st))) eqn:Hv; simpl.
    + split; [|done]. split; [by intros [? ?]|].
      intros [_ Hnull]. by rewrite Hnull in Hv.
    + apply validate_truthy in Hv.
      destruct (createNovel B _ _ _) as [out fx] eqn:Hcreate.
      destruct (after_create _ _ _) as [st2 evs]. simpl.
      split; [|split; [|done]].
      * split; [intros _; split; [by eexists|done]|intros _; by eexists].
      * intros ? ? [= <-] [= <-]. by rewrite Hcreate.
  - split; [|done]. split; [by intros [? ?]|by intros [[? ?] _]].
Qed.

(** X21.  [handleSubmit] never changes the form data or the chosen
    cover, and whenever it has called [createNovel] it ends with
    [uploading = false], whatever [createNovel] did, a rejection
    included. *)
Theorem handleSubmit_leaves_form (up : option UserProfile) (st : State) :
  let r := submit up st in
  formData (state r) = formData st
  ∧ coverImage (state r) = coverImage st
  ∧ (is_Some (created r) → uploading (state r) = false).
Proof.
  unfold handleSubmit. destruct up as [profile|]; simpl.
  - destruct (truthy (validate (formData st))); simpl.
    + split; [done|]. split; [done|]. by intros [? ?].
    + destruct (createNovel B _ _ _) as [out fx].
      pose proof (after_create_keeps out
                    (setUploading true (setError JNull st)))
        as (Hform & Hcover & _).
      destruct (after_create _ _ _) as [st2 evs]. simpl in *.
      by rewrite Hform, Hcover.
  - split; [done|]. split; [done|]. by intros [? ?].
Qed.

(** X22.  [onCreated] and then [onClose] are called exactly when
    [createNovel] returned [success = true], and the error of the state is
    then [null]; in every other case no callback is made. *)
Theorem handleSubmit_callbacks (up : option UserProfile) (st : State) :
  let r := submit up st in
  (events r = [PreventDefault; OnCreated; OnClose]
   ∧ (∃ res, created r = Some (Returns res) ∧ success res = true)
   ∧ error (state r) = JNull)
  ∨ (events r = [PreventDefault]
     ∧ ¬ (∃ res, created r = Some (Returns res) ∧ success res = true)).
Proof.
  unfold handleSubmit. destruct up as [profile|]; simpl.
  - destruct (truthy (validate (formData st))); simpl.
    + right. split; [done|]. by intros (? & ? & _).
    + destruct (createNovel B _ _ _) as [out fx].
      destruct (after_create_cases out
                  (setUploading true (setError JNull st)))
        as [[(res & -> & Hs) Heq]|(Hnot & Hevs & _)].
      * rewrite Heq. simpl. left. split; [done|]. split; [|done].
        by exists res.
      * destruct (after_create _ _ _) as [st2 evs]. simpl in *. subst evs.
        right. split; [done|].
        intros (res & [= ->] & Hs). apply Hnot. by exists res.
  - right. split; [done|]. by intros (? & ? & _).
Qed.

(** X23.  With a user profile present, a submission that does not end in
    success always leaves a non-empty error in the state, so that the
    error box is shown: the validation message, the message returned by
    [createNovel] or ['Failed to create novel'], or after a rejection the
    engine's message or ['An unexpected error occurred']. *)
Theorem handleSubmit_failure_shown (profile : UserProfile) (st : State) :
  let r := submit (Some profile) st in
  (∃ res, created r = Some (Returns res) ∧ success res = true)
  ∨ (truthy (error (state r)) = true
     ∧ ((created r = None ∧ error (state r) = validate (formData st))
        ∨ (∃ res, created r = Some (Returns res) ∧ success res = false
                  ∧ error (state r)
                    = (if truthy (Novels.error res) then Novels.error res
                       else JStr "Failed to create novel"))
        ∨ (created r = Some RejectsTypeError
           ∧ error (state r)
             = (if truthy (JStr type_error_text) then JStr type_error_text
                else JStr "An unexpected error occurred")))).
Proof.
  unfold handleSubmit.
  destruct (truthy (validate (formData st))) eqn:Hv; simpl.
  - right. split; [done|]. by left.
  - destruct (createNovel B _ _ _) as [[res|] fx]; simpl.
    + destruct (success res) eqn:Hs; simpl.
      * left. by exists res.
      * right. split.
        -- unfold js_or. by destruct (truthy (Novels.error res)) eqn:He.
        -- right. left. by exists res.
    + right. split.
      * unfold js_or. by destruct (truthy (JStr type_error_text)) eqn:He.
      * by right; right.
Qed.

End Component.

Import Samples.

Lemma toggle_twice_witness :
  toggle "Drama" (toggle "Drama" ["Fantasy"]) = ["Fantasy"].
Proof.
  apply (toggle_twice "Drama" ["Fantasy"]).
  - intros Hin. apply list_elem_of_singleton in Hin. discriminate.
  - simpl. lia.
Defined.

(** A rejecting platform, a filled form: the spinner is off again and the
    engine's message is shown. *)
Example submit_on_storage_down :
  let r := handleSubmit trim_ascii storage_down "undefined has no properties"
             (Some ann) filled in
  created r = Some RejectsTypeError
  ∧ uploading (state r) = false
  ∧ error (state r) = JStr "undefined has no properties"
  ∧ events r = [PreventDefault].
Proof. by vm_compute. Qed.

(** A title of blanks only: nothing is sent. *)
Example submit_untitled :
  let r := handleSubmit trim_ascii healthy "" (Some ann) untitled in
  created r = None ∧ error (state r) = JStr "Title is required".
Proof. by vm_compute. Qed.

End ModalFacts.
